(** * CodeActAgent: one conversational turn

    A shallow embedding of [agenthub/codeact_agent/codeact_agent.py]:
    the observation formatter ([truncate_observation]), the history
    renderer ([get_action_message], [get_observation_message],
    [_get_messages]), the response decoder ([parse_response] and the
    tag matching at the end of [step]) and the overflow recovery inside
    the turn orchestrator ([_retry_with_condense], [step]).

    Python strings are modelled as lists of 8-bit characters, Python
    integers as [Z], exceptions as an error result, and the objects the
    agent talks to (completion service, condenser, history sink) as
    functions over an explicit world state. *)

From Stdlib Require Import Ascii String DecimalString.
From Stdlib Require Import List ZArith Lia Bool Arith.
Import ListNotations.

Definition str := list ascii.

Coercion list_ascii_of_string : string >-> list.

Open Scope string_scope.
Open Scope list_scope.

(** ** Python string primitives *)

Module PyStr.

Fixpoint eqb (a b : str) : bool :=
  match a, b with
  | [], [] => true
  | x :: a', y :: b' => Ascii.eqb x y && eqb a' b'
  | _, _ => false
  end.

(** [s.startswith(p)] *)
Fixpoint startswith (p s : str) : bool :=
  match p with
  | [] => true
  | x :: p' =>
      match s with
      | [] => false
      | y :: s' => Ascii.eqb x y && startswith p' s'
      end
  end.

(** [sub in s] *)
Fixpoint contains (sub s : str) : bool :=
  startswith sub s
  || match s with
     | [] => false
     | _ :: s' => contains sub s'
     end.

(** [str.isspace] on one character, for code points below 256:
    TAB, LF, VT, FF, CR, FS, GS, RS, US, SPACE, NEL and NBSP. *)
Definition isspace (c : ascii) : bool :=
  let n := nat_of_ascii c in
  (((9 <=? n) && (n <=? 13)) || ((28 <=? n) && (n <=? 32))
   || (n =? 133) || (n =? 160))%nat.

Fixpoint lstrip (s : str) : str :=
  match s with
  | [] => []
  | c :: s' => if isspace c then lstrip s' else s
  end.

Definition rstrip (s : str) : str := rev (lstrip (rev s)).

(** [s.strip()] *)
Definition strip (s : str) : str := rstrip (lstrip s).

(** [s.replace(old, new)] for a non-empty [old]: the occurrences of
    [old] are replaced from the left and do not overlap; [skip]
    counts the characters of an occurrence still to be passed over. *)
Fixpoint replace_go (old new s : str) (skip : nat) : str :=
  match s with
  | [] => []
  | c :: s' =>
      match skip with
      | S k => replace_go old new s' k
      | O =>
          if startswith old s
          then new ++ replace_go old new s' (length old - 1)
          else c :: replace_go old new s' 0
      end
  end.

(** [s.replace(old, new)]; an empty [old] matches before every
    character and at the end. *)
Definition replace (s old new : str) : str :=
  match old with
  | [] => new ++ flat_map (fun c => c :: new) s
  | _ :: _ => replace_go old new s 0
  end.

(** [s.split('\n')] *)
Fixpoint split_lines (s : str) : list str :=
  match s with
  | [] => [[]]
  | c :: s' =>
      if Ascii.eqb c "010"%char
      then [] :: split_lines s'
      else match split_lines s' with
           | [] => [[c]]
           | l :: ls => (c :: l) :: ls
           end
  end.

(** ['\n'.join(ls)] *)
Fixpoint join_lines (ls : list str) : str :=
  match ls with
  | [] => []
  | [l] => l
  | l :: ls' => l ++ "010"%char :: join_lines ls'
  end.

(** [s[:k]] for any integer [k] *)
Definition slice_to (s : str) (k : Z) : str :=
  let len := Z.of_nat (length s) in
  let stop := if (k <? 0)%Z then Z.max 0 (len + k) else Z.min k len in
  firstn (Z.to_nat stop) s.

(** [s[k:]] for any integer [k] *)
Definition slice_from (s : str) (k : Z) : str :=
  let len := Z.of_nat (length s) in
  let start := if (k <? 0)%Z then Z.max 0 (len + k) else Z.min k len in
  skipn (Z.to_nat start) s.

(** [str(n)] for an integer *)
Definition of_int (n : Z) : str :=
  list_ascii_of_string (NilZero.string_of_int (Z.to_int n)).

End PyStr.

(** ** The fragment of [re] used by the decoder

    The patterns are sequences of literal text and [.*] / [.*?] under
    [re.DOTALL].  [match_here] is the backtracking matcher: a greedy
    star first tries to take one more character, a lazy star first
    tries to stop. *)

Module Re.

Inductive item : Type :=
| Lit (l : str)
| DotStar (greedy : bool).

Definition regex := list item.

(** A star followed by the rest of the pattern, [rest] being the
    matcher of what follows. *)
Fixpoint star (rest : str -> option nat) (greedy : bool) (t : str)
  : option nat :=
  match t with
  | [] => rest []
  | _ :: t' =>
      if greedy
      then match star rest greedy t' with
           | Some n => Some (S n)
           | None => rest t
           end
      else match rest t with
           | Some n => Some n
           | None => option_map S (star rest greedy t')
           end
  end.

(** Length of the match of [r] anchored at the start of [s]. *)
Fixpoint match_here (r : regex) (s : str) {struct r} : option nat :=
  match r with
  | [] => Some 0
  | Lit l :: r' =>
      if PyStr.startswith l s
      then option_map (Nat.add (length l)) (match_here r' (skipn (length l) s))
      else None
  | DotStar greedy :: r' => star (match_here r') greedy s
  end.

(** [re.search(r, s)] scanning from offset [i]: start and length of
    the leftmost match. *)
Fixpoint search_from (r : regex) (s : str) (i : nat) : option (nat * nat) :=
  match match_here r s with
  | Some n => Some (i, n)
  | None =>
      match s with
      | [] => None
      | _ :: s' => search_from r s' (S i)
      end
  end.

Definition search (r : regex) (s : str) : option (nat * nat) :=
  search_from r s 0.

(** [m.group(0)] *)
Definition group0 (s : str) (m : nat * nat) : str :=
  firstn (snd m) (skipn (fst m) s).

(** An opening literal, one captured star (greedy or lazy) and a
    closing literal. *)
Definition tagged (open : str) (greedy : bool) (close : str) : regex :=
  [Lit open; DotStar greedy; Lit close].

(** The matcher of a closing literal that ends a pattern. *)
Definition close_here (c t : str) : option nat := match_here [Lit c] t.

(** [m.group(1)] for a match of [tagged open _ close] *)
Definition group1 (open close s : str) (m : nat * nat) : str :=
  firstn (snd m - length open - length close)
         (skipn (fst m + length open) s).

End Re.

(** ** Events *)

Inductive EventSource : Type := AGENT | USER.

Inductive Action : Type :=
| CmdRunAction (command thought : str)
| IPythonRunCellAction (code thought kernel_init_code : str)
| BrowseInteractiveAction (browser_actions thought : str)
| MessageAction (content : str) (wait_for_response : bool)
| AgentSummarizeAction (summary : str)
| AgentFinishAction (thought : option str)
| OtherAction.

Inductive Observation : Type :=
| CmdOutputObservation (content : str) (command_id exit_code : Z)
| IPythonRunCellObservation (content : str)
| BrowserOutputObservation (content : str)
| SummaryObservation (content : str)
| OtherObservation (content : str).

Inductive Event : Type :=
| ActionEvent (source : option EventSource) (a : Action)
| ObservationEvent (o : Observation).

Inductive Role : Type := system | user | assistant.

Record Message : Type := mkMessage { role : Role; content : str }.

Definition Role_eqb (a b : Role) : bool :=
  match a, b with
  | system, system | user, user | assistant, assistant => true
  | _, _ => false
  end.

(** ** Response decoder *)

Definition open_tag (lang : str) : str := "<execute_" ++ lang ++ ">".
Definition close_tag (lang : str) : str := "</execute_" ++ lang ++ ">".

(** The body of the loop of [parse_response] *)
Definition repair (action lang : str) : str :=
  if PyStr.contains (open_tag lang) action
     && negb (PyStr.contains (close_tag lang) action)
  then action ++ close_tag lang
  else action.

(** [parse_response], applied to [response.choices[0].message.content] *)
Definition parse_response (content : str) : str :=
  fold_left repair (["bash" : str; "ipython" : str; "browse" : str]) content.

Definition finish_re : Re.regex := Re.tagged "<finish>" true "</finish>".
Definition bash_re : Re.regex := Re.tagged "<execute_bash>" false "</execute_bash>".
Definition ipython_re : Re.regex :=
  Re.tagged "<execute_ipython>" false "</execute_ipython>".
Definition browse_re : Re.regex :=
  Re.tagged "<execute_browse>" true "</execute_browse>".

Definition jupyter_kernel_init_code : str := "from agentskills import *".

(** [action_str.replace(m.group(0), '').strip()] *)
Definition thought_of (action_str : str) (m : nat * nat) : str :=
  PyStr.strip (PyStr.replace action_str (Re.group0 action_str m) []).

(** The tag matching that ends [CodeActAgent.step]. *)
Definition decode (action_str : str) : Action :=
  match Re.search finish_re action_str with
  | Some finish_command =>
      AgentFinishAction (Some (thought_of action_str finish_command))
  | None =>
  match Re.search bash_re action_str with
  | Some bash_command =>
      let thought := thought_of action_str bash_command in
      let command_group :=
        PyStr.strip
          (Re.group1 "<execute_bash>" "</execute_bash>" action_str bash_command) in
      if PyStr.eqb (PyStr.strip command_group) "exit"
      then AgentFinishAction None
      else CmdRunAction command_group thought
  | None =>
  match Re.search ipython_re action_str with
  | Some python_code =>
      let code_group :=
        PyStr.strip
          (Re.group1 "<execute_ipython>" "</execute_ipython>" action_str python_code) in
      let thought := thought_of action_str python_code in
      IPythonRunCellAction code_group thought jupyter_kernel_init_code
  | None =>
  match Re.search browse_re action_str with
  | Some browse_command =>
      let browse_actions :=
        PyStr.strip
          (Re.group1 "<execute_browse>" "</execute_browse>" action_str browse_command) in
      let thought := thought_of action_str browse_command in
      BrowseInteractiveAction browse_actions thought
  | None => MessageAction action_str true
  end end end end.

(** The actions the decoder can return *)
Definition decoded_variant (a : Action) : Prop :=
  match a with
  | AgentFinishAction _ | CmdRunAction _ _ | IPythonRunCellAction _ _ _
  | BrowseInteractiveAction _ _ | MessageAction _ true => True
  | _ => False
  end.

(** [s] contains [open], some text, and then [close]. *)
Definition has_span (open close s : str) : Prop :=
  exists a b d, s = a ++ open ++ b ++ close ++ d.

(** ** Observation formatter *)

Definition nl : str := ["010"%char].

Definition truncation_marker : str :=
  nl ++ "[... Observation truncated due to length ...]" ++ nl.

Definition default_max_chars : Z := 10000.

Definition truncate_observation (observation : str) (max_chars : Z) : str :=
  if (Z.of_nat (length observation) <=? max_chars)%Z
  then observation
  else
    let half := (max_chars / 2)%Z in
    PyStr.slice_to observation half
    ++ truncation_marker
    ++ PyStr.slice_from observation (- half).

(** ** History renderer *)

Definition action_to_str (action : Action) : str :=
  match action with
  | CmdRunAction command thought =>
      thought ++ nl ++ "<execute_bash>" ++ nl ++ command ++ nl ++ "</execute_bash>"
  | IPythonRunCellAction code thought _ =>
      thought ++ nl ++ "<execute_ipython>" ++ nl ++ code ++ nl ++ "</execute_ipython>"
  | BrowseInteractiveAction browser_actions thought =>
      thought ++ nl ++ "<execute_browse>" ++ nl ++ browser_actions ++ nl
      ++ "</execute_browse>"
  | MessageAction content _ => content
  | _ => []
  end.

Definition get_action_message (source : option EventSource) (action : Action)
  : option Message :=
  match action with
  | BrowseInteractiveAction _ _
  | CmdRunAction _ _
  | IPythonRunCellAction _ _ _
  | MessageAction _ _
  | AgentSummarizeAction _ =>
      Some {| role := match source with Some USER => user | _ => assistant end;
              content := action_to_str action |}
  | _ => None
  end.

Definition image_marker : str := "![image](data:image/png;base64,".

Definition image_placeholder : str :=
  "![image](data:image/png;base64, ...) already displayed to user".

Definition get_observation_message (obs : Observation) : option Message :=
  match obs with
  | CmdOutputObservation c command_id exit_code =>
      let content := "OBSERVATION:" ++ nl ++ truncate_observation c default_max_chars in
      let content :=
        content ++ nl ++ "[Command " ++ PyStr.of_int command_id
        ++ " finished with exit code " ++ PyStr.of_int exit_code ++ "]]" in
      Some {| role := user; content := content |}
  | IPythonRunCellObservation c =>
      let content := "OBSERVATION:" ++ nl ++ c in
      let splitted := PyStr.split_lines content in
      let splitted :=
        map (fun line =>
               if PyStr.contains image_marker line then image_placeholder else line)
            splitted in
      let content := PyStr.join_lines splitted in
      let content := truncate_observation content default_max_chars in
      Some {| role := user; content := content |}
  | BrowserOutputObservation c =>
      let content := "OBSERVATION:" ++ nl ++ truncate_observation c default_max_chars in
      Some {| role := user; content := content |}
  | SummaryObservation c =>
      let content := "OBSERVATION:" ++ nl ++ truncate_observation c default_max_chars in
      Some {| role := user; content := c |}
  | OtherObservation _ => None
  end.

(** The texts of [agenthub.codeact_agent.prompt], which the agent only
    concatenates. *)
Record Prompt : Type := mkPrompt {
  COMMAND_DOCS : str;
  EXAMPLES : str;
  GITHUB_MESSAGE : str;
  SYSTEM_PREFIX : str;
  SYSTEM_SUFFIX : str
}.

Definition ENABLE_GITHUB : bool := true.

Definition get_system_message (p : Prompt) : str :=
  if ENABLE_GITHUB
  then SYSTEM_PREFIX p ++ nl ++ GITHUB_MESSAGE p ++ nl ++ nl ++ COMMAND_DOCS p
       ++ nl ++ nl ++ SYSTEM_SUFFIX p
  else SYSTEM_PREFIX p ++ nl ++ nl ++ COMMAND_DOCS p ++ nl ++ nl ++ SYSTEM_SUFFIX p.

Definition get_in_context_example (p : Prompt) : str := EXAMPLES p.

Definition system_message (p : Prompt) : str := get_system_message p.

Definition in_context_example (p : Prompt) : str :=
  "Here is an example of how you can interact with the environment for task solving:"
  ++ nl ++ get_in_context_example p ++ nl ++ nl ++ "NOW, LET'S START!".

Record State : Type := mkState {
  history : list Event;
  iteration : Z;
  max_iterations : Z;
  num_of_chars : Z
}.

Definition event_message (event : Event) : option Message :=
  match event with
  | ActionEvent source a => get_action_message source a
  | ObservationEvent o => get_observation_message o
  end.

Fixpoint event_messages (events : list Event) : list Message :=
  match events with
  | [] => []
  | event :: rest =>
      match event_message event with
      | Some message => message :: event_messages rest
      | None => event_messages rest
      end
  end.

(** The list [_get_messages] has built when its loop over the history
    ends. *)
Definition initial_messages (p : Prompt) (st : State) : list Message :=
  [ {| role := system; content := system_message p |};
    {| role := user; content := in_context_example p |} ]
  ++ event_messages (history st).

(** Position of [next(m for m in reversed(messages) if m['role'] == 'user')] *)
Fixpoint latest_user_index (messages : list Message) : option nat :=
  match messages with
  | [] => None
  | m :: rest =>
      match latest_user_index rest with
      | Some i => Some (S i)
      | None => if Role_eqb (role m) user then Some 0 else None
      end
  end.

Definition latest_user_message (messages : list Message) : option Message :=
  match latest_user_index messages with
  | Some i => nth_error messages i
  | None => None
  end.

Definition reminder (st : State) : str :=
  nl ++ nl ++ "ENVIRONMENT REMINDER: You have "
  ++ PyStr.of_int (max_iterations st - iteration st)
  ++ " turns left to complete the task.".

(** [messages[i]['content'] += extra], the other messages untouched *)
Fixpoint append_content (messages : list Message) (i : nat) (extra : str)
  : list Message :=
  match messages, i with
  | [], _ => []
  | m :: rest, O => {| role := role m; content := content m ++ extra |} :: rest
  | m :: rest, S j => m :: append_content rest j extra
  end.

Definition is_exit (m : Message) : bool :=
  PyStr.eqb (PyStr.strip (content m)) "/exit".

Definition _get_messages (p : Prompt) (st : State) : list Message :=
  let messages := initial_messages p st in
  match latest_user_index messages with
  | Some i =>
      match nth_error messages i with
      | Some m =>
          if is_exit m then messages else append_content messages i (reminder st)
      | None => messages
      end
  | None => messages
  end.

(** ** Turn orchestrator

    The completion service, the condenser and the history sink are
    outside this file: they are functions over a world state [W] that
    every call may change.  A turn runs in a state-and-error monad over
    the task state, the world and the log of the calls made so far. *)

Inductive Exception : Type :=
| ContextWindowExceededError
| ContextWindowLimit (msg : str)
| AttributeError
| OtherError (name : str).

Inductive Call : Type :=
| CompletionCall (messages : list Message)
| TokenLimitCall
| CondenseCall (yielded : bool).

Definition is_completion (c : Call) : bool :=
  match c with CompletionCall _ => true | _ => false end.

Inductive Res (A : Type) : Type :=
| Ok (a : A)
| Raise (e : Exception)
| OutOfFuel.

Arguments Ok {A} a.
Arguments Raise {A} e.
Arguments OutOfFuel {A}.

Section Orchestrator.

Variable W : Type.

Record MemoryCondenser : Type := mkMemoryCondenser {
  is_over_token_limit : W -> list Message -> bool * W;
  condense : W -> list Event -> option Action * W
}.

(** [llm_completion] returns the content of the first choice of the
    response, or the exception the call raises. *)
Record Agent : Type := mkAgent {
  prompt : Prompt;
  llm_completion : W -> list Message -> (Exception + str) * W;
  memory_condenser : option MemoryCondenser;
  max_input_tokens : option Z;
  replace_events_with_summary : list Event -> Action -> list Event
}.

Record Store : Type := mkStore {
  state : State;
  world : W;
  calls : list Call
}.

Definition M (A : Type) : Type := Store -> Res A * Store.

Definition ret {A : Type} (a : A) : M A := fun s => (Ok a, s).

Definition raise {A : Type} (e : Exception) : M A := fun s => (Raise e, s).

Definition out_of_fuel {A : Type} : M A := fun s => (OutOfFuel, s).

Definition bind {A B : Type} (m : M A) (k : A -> M B) : M B :=
  fun s =>
    match m s with
    | (Ok a, s') => k a s'
    | (Raise e, s') => (Raise e, s')
    | (OutOfFuel, s') => (OutOfFuel, s')
    end.

Notation "x <- m ;; k" := (bind m (fun x => k))
  (at level 61, m at next level, right associativity).
Notation "m ;;; k" := (bind m (fun _ => k))
  (at level 61, right associativity).

Definition get_state : M State := fun s => (Ok (state s), s).

Definition set_history (h : list Event) : M unit :=
  fun s =>
    (Ok tt,
     {| state := {| history := h;
                    iteration := iteration (state s);
                    max_iterations := max_iterations (state s);
                    num_of_chars := num_of_chars (state s) |};
        world := world s;
        calls := calls s |}).

Definition add_num_of_chars (n : Z) : M unit :=
  fun s =>
    (Ok tt,
     {| state := {| history := history (state s);
                    iteration := iteration (state s);
                    max_iterations := max_iterations (state s);
                    num_of_chars := num_of_chars (state s) + n |};
        world := world s;
        calls := calls s |}).

(** One call of a collaborator: the world moves on and the call is
    logged. *)
Definition call {A : Type} (f : W -> A * W) (entry : A -> Call) : M A :=
  fun s =>
    let (a, w) := f (world s) in
    (Ok a, {| state := state s; world := w; calls := calls s ++ [entry a] |}).

Variable self : Agent.

Definition render : M (list Message) :=
  st <- get_state ;; ret (_get_messages (prompt self) st).

Definition _retry_with_condense : M unit :=
  st <- get_state ;;
  let events := history st in
  let fatal :=
    raise (ContextWindowLimit
             "Context window limit exceeded. Unable to condense memory.") in
  match memory_condenser self with
  | Some mc =>
      summary_action <-
        call (fun w => condense mc w events)
             (fun r => CondenseCall (match r with Some _ => true | None => false end)) ;;
      match summary_action with
      | Some sa =>
          st' <- get_state ;;
          set_history (replace_events_with_summary self (history st') sa)
      | None => fatal
      end
  | None => fatal
  end.

(** [self.llm.completion(...)] inside its [try]: [inl] is the
    response, [inr tt] says that [ContextWindowExceededError] was
    caught; any other exception leaves the turn. *)
Definition try_completion (messages : list Message) : M (str + unit) :=
  r <- call (fun w => llm_completion self w messages)
            (fun _ => CompletionCall messages) ;;
  match r with
  | inr response => ret (inl response)
  | inl ContextWindowExceededError => ret (inr tt)
  | inl e => raise e
  end.

(** The loop [while not response and attempt < 3].  Nothing in its
    body assigns [attempt]; [fuel] bounds the iterations of the
    model only. *)
Fixpoint completion_loop (fuel : nat) (response : option str) (attempt : Z)
         (messages : list Message) : M (option str * list Message) :=
  if (match response with None => true | Some _ => false end)
     && (attempt <? 3)%Z
  then
    match fuel with
    | O => out_of_fuel
    | S fuel' =>
        r <- try_completion messages ;;
        match r with
        | inl response' => completion_loop fuel' (Some response') attempt messages
        | inr _ =>
            match memory_condenser self with
            | Some _ =>
                _retry_with_condense ;;;
                messages' <- render ;;
                completion_loop fuel' response attempt messages'
            | None => completion_loop fuel' response attempt messages
            end
        end
    end
  else ret (response, messages).

Definition sum_content_lengths (messages : list Message) : Z :=
  fold_right (fun m acc => (Z.of_nat (length (content m)) + acc)%Z) 0%Z messages.

(** What [step] does with the response once the loop has ended:
    decode it and count the characters. *)
Definition after_loop (r : option str * list Message) : M Action :=
  let (response, messages) := r in
  match response with
  | None => raise AttributeError
  | Some content =>
      let action_str := parse_response content in
      add_num_of_chars
        (sum_content_lengths messages + Z.of_nat (length action_str)) ;;;
      ret (decode action_str)
  end.

Definition step (fuel : nat) : M Action :=
  messages <- render ;;
  messages <-
    match max_input_tokens self, memory_condenser self with
    | Some _, Some mc =>
        over <- call (fun w => is_over_token_limit mc w messages)
                     (fun _ => TokenLimitCall) ;;
        if (over : bool)
        then _retry_with_condense ;;; render
        else ret messages
    | _, _ => ret messages
    end ;;
  if match latest_user_message messages with
     | Some m => is_exit m
     | None => false
     end
  then ret (AgentFinishAction None)
  else
    r <- completion_loop fuel None 0 messages ;;
    after_loop r.

(** The test that sends [step] into recovery before any completion
    call: a token ceiling is configured, there is a condenser, and
    the condenser finds the rendered messages over the ceiling. *)
Definition preemptive_overflow (w : W) (messages : list Message) : bool :=
  match max_input_tokens self, memory_condenser self with
  | Some _, Some mc => fst (is_over_token_limit mc w messages)
  | _, _ => false
  end.

Definition fatal_error : Exception :=
  ContextWindowLimit
    "Context window limit exceeded. Unable to condense memory.".

(** What a failed condensation does to a computation: it ends with
    the fatal error, and the failed call is the last one logged. *)
Definition fatal_last {A : Type} (m : M A) : Prop :=
  forall s res s',
    m s = (res, s') ->
    exists new,
      calls s' = calls s ++ new /\
      (In (CondenseCall false) new ->
       res = Raise fatal_error /\
       exists before, new = before ++ [CondenseCall false]).

(** Every run of [m] relates the store before to the store after. *)
Definition keeps {A : Type} (R : Store -> Store -> Prop) (m : M A) : Prop :=
  forall s res s', m s = (res, s') -> R s s'.

(** What a turn may do to the task state: the counters of the caller
    stay, the character total does not shrink, and the history stays
    unless a condensation yielded a summary. *)
Definition turn_effect (s s' : Store) : Prop :=
  exists new,
    calls s' = calls s ++ new /\
    iteration (state s') = iteration (state s) /\
    max_iterations (state s') = max_iterations (state s) /\
    (num_of_chars (state s) <= num_of_chars (state s'))%Z /\
    (history (state s') = history (state s) \/ In (CondenseCall true) new).

(** The calls logged between two stores all satisfy [P]. *)
Definition logs_only (P : Call -> Prop) (s s' : Store) : Prop :=
  exists new, calls s' = calls s ++ new /\ Forall P new.

(** The task state with its history replaced. *)
Definition with_history (st : State) (h : list Event) : State :=
  {| history := h;
     iteration := iteration st;
     max_iterations := max_iterations st;
     num_of_chars := num_of_chars st |}.

(** The task state with [n] added to its character total. *)
Definition with_more_chars (st : State) (n : Z) : State :=
  {| history := history st;
     iteration := iteration st;
     max_iterations := max_iterations st;
     num_of_chars := num_of_chars st + n |}.

(** A turn started on a task state and a world. *)
Definition run_step (fuel : nat) (st : State) (w : W) : Res Action * Store :=
  step fuel {| state := st; world := w; calls := [] |}.

Definition completion_calls (s : Store) : nat :=
  length (filter is_completion (calls s)).

End Orchestrator.

Arguments mkMemoryCondenser {W}.
Arguments is_over_token_limit {W}.
Arguments condense {W}.
Arguments mkAgent {W}.
Arguments prompt {W}.
Arguments llm_completion {W}.
Arguments memory_condenser {W}.
Arguments max_input_tokens {W}.
Arguments replace_events_with_summary {W}.
Arguments mkStore {W}.
Arguments state {W}.
Arguments world {W}.
Arguments calls {W}.
Arguments ret {W A}.
Arguments raise {W A}.
Arguments bind {W A B}.
Arguments call {W A}.
Arguments render {W}.
Arguments _retry_with_condense {W}.
Arguments try_completion {W}.
Arguments completion_loop {W}.
Arguments after_loop {W}.
Arguments step {W}.
Arguments preemptive_overflow {W}.
Arguments fatal_last {W A}.
Arguments keeps {W A}.
Arguments turn_effect {W}.
Arguments logs_only {W}.
Arguments get_state {W}.
Arguments set_history {W}.
Arguments add_num_of_chars {W}.
Arguments out_of_fuel {W A}.
Arguments run_step {W}.
Arguments completion_calls {W}.

(** ** Vocabulary of the further properties *)

(** The test of [parse_response] for one tag family: the opening tag
    occurs and the closing tag does not. *)
Definition unclosed (lang s : str) : bool :=
  PyStr.contains (open_tag lang) s && negb (PyStr.contains (close_tag lang) s).

Definition languages : list str := ["bash" : str; "ipython" : str; "browse" : str].

(** The text holds no [<]. *)
Definition tag_free (s : str) : Prop := Forall (fun c => c <> "<"%char) s.

(** The text holds no line feed. *)
Definition one_line (s : str) : Prop := Forall (fun c => c <> "010"%char) s.

(** The test [step] makes on the rendered messages before it calls the
    completion service. *)
Definition ends_with_exit (messages : list Message) : bool :=
  match latest_user_message messages with
  | Some m => is_exit m
  | None => false
  end.

(** ** Scenarios

    Concrete prompts, task states and collaborators on which the turn
    is run below. *)

Module Scenario.

Definition texts : Prompt := mkPrompt "docs" "example" "github" "prefix" "suffix".

Definition said (source : EventSource) (text : str) : Event :=
  ActionEvent (Some source) (MessageAction text false).

Definition exit_state : State := mkState [said USER "/exit"] 2 10 0.

Definition task_state : State := mkState [said USER "list the files"] 2 10 0.

Definition summary_action : Action := AgentSummarizeAction "summary".

(** A condenser that finds every prompt too long and has nothing left
    to condense. *)
Definition stuck_condenser : MemoryCondenser unit :=
  mkMemoryCondenser (fun w _ => (true, w)) (fun w _ => (None, w)).

(** A condenser that always yields a summary. *)
Definition willing_condenser (W : Type) : MemoryCondenser W :=
  mkMemoryCondenser (fun w _ => (false, w)) (fun w _ => (Some summary_action, w)).

(** No token ceiling configured; the completion service answers. *)
Definition plain_agent : Agent unit :=
  mkAgent texts (fun w _ => (inr ("ok" : str), w))
          (Some (willing_condenser unit)) None (fun h _ => h).

(** A token ceiling is configured and the condenser is stuck. *)
Definition capped_agent : Agent unit :=
  mkAgent texts (fun w _ => (inr ("ok" : str), w))
          (Some stuck_condenser) (Some 1%Z) (fun h _ => h).

(** The world counts the completion calls: the first three exceed the
    context window, the fourth answers.  Each condensation replaces
    the oldest event by the summary. *)
Definition shrinking_agent : Agent nat :=
  mkAgent texts
          (fun w _ =>
             if (w <? 3)%nat
             then (inl ContextWindowExceededError, S w)
             else (inr ("All done." : str), S w))
          (Some (willing_condenser nat)) None
          (fun h sa => ActionEvent (Some AGENT) sa :: skipn 1 h).

(** Every completion call exceeds the context window and every
    condensation yields a summary. *)
Definition overflowing_agent : Agent unit :=
  mkAgent texts (fun w _ => (inl ContextWindowExceededError, w))
          (Some (willing_condenser unit)) None (fun h _ => h).

(** Every completion call exceeds the context window and the
    condenser is stuck. *)
Definition stuck_agent : Agent unit :=
  mkAgent texts (fun w _ => (inl ContextWindowExceededError, w))
          (Some stuck_condenser) None (fun h _ => h).

(** The completion service fails for a reason of its own. *)
Definition failing_agent : Agent unit :=
  mkAgent texts (fun w _ => (inl (OtherError "RateLimitError"), w))
          (Some (willing_condenser unit)) None (fun h _ => h).

(** The first completion call exceeds the context window, the second
    answers; the condensation replaces the whole history by the
    summary. *)
Definition recovering_agent : Agent nat :=
  mkAgent texts
          (fun w _ =>
             if (w <? 1)%nat
             then (inl ContextWindowExceededError, S w)
             else (inr ("All done." : str), S w))
          (Some (willing_condenser nat)) None
          (fun _ sa => [ActionEvent (Some AGENT) sa]).

(** No condenser at all, and every completion call exceeds the
    context window. *)
Definition bare_agent : Agent unit :=
  mkAgent texts (fun w _ => (inl ContextWindowExceededError, w))
          None (Some 1%Z) (fun h _ => h).

(** A condenser that finds every prompt too long and always yields a
    summary. *)
Definition eager_condenser : MemoryCondenser unit :=
  mkMemoryCondenser (fun w _ => (true, w)) (fun w _ => (Some summary_action, w)).

(** A token ceiling is configured; the summary is put in front of the
    history. *)
Definition eager_agent : Agent unit :=
  mkAgent texts (fun w _ => (inr ("ok" : str), w))
          (Some eager_condenser) (Some 1%Z)
          (fun h sa => ActionEvent (Some AGENT) sa :: h).

End Scenario.

(** * Properties *)

(** ** Strings *)

Module PyStrFacts.
Import PyStr.

Lemma eqb_eq (a b : str) : eqb a b = true <-> a = b.
Proof.
  revert b; induction a as [|x a IH]; intros [|y b]; simpl;
    try (split; congruence).
  rewrite andb_true_iff, Ascii.eqb_eq, IH.
  split; [intros [-> ->]; reflexivity | intros [= -> ->]; auto].
Qed.

Lemma eqb_neq (a b : str) : eqb a b = false <-> a <> b.
Proof.
  rewrite <- eqb_eq. destruct (eqb a b); split; congruence.
Qed.

Lemma startswith_app (p r : str) : startswith p (p ++ r) = true.
Proof.
  induction p as [|x p IH]; simpl; [reflexivity|].
  now rewrite Ascii.eqb_refl, IH.
Qed.

Lemma startswith_inv (p s : str) :
  startswith p s = true -> s = p ++ skipn (length p) s.
Proof.
  revert s; induction p as [|x p IH]; intros s H; simpl in *; [reflexivity|].
  destruct s as [|y s]; [discriminate|].
  apply andb_true_iff in H as [Hxy Hp].
  apply Ascii.eqb_eq in Hxy as ->.
  simpl. f_equal. now apply IH.
Qed.

Lemma startswith_iff (p s : str) :
  startswith p s = true <-> exists r, s = p ++ r.
Proof.
  split.
  - intros H. eexists. now apply startswith_inv.
  - intros [r ->]. apply startswith_app.
Qed.

Lemma contains_iff (sub s : str) :
  contains sub s = true <-> exists a b, s = a ++ sub ++ b.
Proof.
  induction s as [|c s IH]; simpl.
  - rewrite orb_false_r, startswith_iff. split.
    + intros [r H]. exists [], r. exact H.
    + intros [a [b H]]. destruct a; [now exists b|discriminate].
  - rewrite orb_true_iff, IH, startswith_iff. split.
    + intros [[r H]|[a [b H]]].
      * exists [], r. exact H.
      * exists (c :: a), b. simpl. now f_equal.
    + intros [[|x a] [b H]].
      * left. now exists b.
      * right. injection H as _ H. now exists a, b.
Qed.

Lemma contains_skipn (sub s : str) (k : nat) :
  startswith sub (skipn k s) = true -> contains sub s = true.
Proof.
  revert s; induction k as [|k IH]; intros s H.
  - destruct s; simpl in *; now rewrite H.
  - destruct s as [|c s]; simpl in *.
    + now rewrite H.
    + rewrite (IH _ H). apply orb_true_r.
Qed.

Lemma contains_false_skipn (sub s : str) (k : nat) :
  contains sub s = false -> k <= length s -> startswith sub (skipn k s) = false.
Proof.
  intros H _. destruct (startswith sub (skipn k s)) eqn:E; [|reflexivity].
  apply contains_skipn in E. congruence.
Qed.

Lemma contains_app_l (sub s t : str) :
  contains sub s = true -> contains sub (s ++ t) = true.
Proof.
  rewrite !contains_iff. intros [a [b ->]].
  exists a, (b ++ t). now rewrite <- !app_assoc.
Qed.

Lemma contains_app_r (sub s t : str) :
  contains sub t = true -> contains sub (s ++ t) = true.
Proof.
  rewrite !contains_iff. intros [a [b ->]].
  exists (s ++ a), b. now rewrite <- !app_assoc.
Qed.

Lemma lstrip_idem (s : str) : lstrip (lstrip s) = lstrip s.
Proof.
  induction s as [|c s IH]; simpl; [reflexivity|].
  destruct (isspace c) eqn:E; [exact IH|]. simpl. now rewrite E.
Qed.

Lemma lstrip_snoc (u : str) (c : ascii) :
  isspace c = false -> exists v, lstrip (u ++ [c]) = v ++ [c].
Proof.
  intros Hc. induction u as [|x u [v IH]]; simpl.
  - rewrite Hc. now exists [].
  - destruct (isspace x); [now exists v|].
    exists (x :: u). reflexivity.
Qed.

Lemma lstrip_rstrip (t : str) : lstrip t = t -> lstrip (rstrip t) = rstrip t.
Proof.
  destruct t as [|c t]; [reflexivity|].
  simpl. destruct (isspace c) eqn:E.
  - intros H. exfalso.
    assert (L : forall u, length (lstrip u) <= length u).
    { induction u as [|x u IHu]; simpl; [lia|].
      destruct (isspace x); simpl; lia. }
    specialize (L t). rewrite H in L. simpl in L. lia.
  - intros _. unfold rstrip. simpl.
    destruct (lstrip_snoc (rev t) c E) as [v ->].
    rewrite rev_app_distr. simpl. now rewrite E.
Qed.

Lemma rstrip_idem (s : str) : rstrip (rstrip s) = rstrip s.
Proof.
  unfold rstrip. now rewrite rev_involutive, lstrip_idem.
Qed.

Lemma strip_idem (s : str) : strip (strip s) = strip s.
Proof.
  unfold strip.
  rewrite (lstrip_rstrip (lstrip s) (lstrip_idem s)).
  apply rstrip_idem.
Qed.

Lemma replace_go_skip (old new x r : str) :
  replace_go old new (x ++ r) (length x) = replace_go old new r 0.
Proof.
  induction x as [|c x IH]; simpl; [|exact IH].
  destruct r; reflexivity.
Qed.

Lemma replace_go_keep (old new a r : str) :
  (forall j, j < length a -> startswith old (skipn j (a ++ r)) = false) ->
  replace_go old new (a ++ r) 0 = a ++ replace_go old new r 0.
Proof.
  induction a as [|c a IH]; intros H; [reflexivity|].
  simpl. pose proof (H 0 ltac:(simpl; lia)) as H0. simpl in H0.
  rewrite H0. f_equal. apply IH.
  intros j Hj. apply (H (S j)). simpl; lia.
Qed.

Lemma replace_go_hit (old new r : str) :
  old <> [] -> replace_go old new (old ++ r) 0 = new ++ replace_go old new r 0.
Proof.
  destruct old as [|h tl]; [congruence|]. intros _.
  change ((h :: tl) ++ r) with (h :: (tl ++ r)).
  cbn [replace_go].
  change (h :: tl ++ r) with ((h :: tl) ++ r).
  rewrite startswith_app. f_equal.
  replace (length (h :: tl) - 1) with (length tl) by (simpl; lia).
  apply replace_go_skip.
Qed.

(** Removing the only occurrence of [old] *)
Lemma replace_single (old a d : str) :
  old <> [] ->
  (forall j, j < length a -> startswith old (skipn j (a ++ old ++ d)) = false) ->
  contains old d = false ->
  replace (a ++ old ++ d) old [] = a ++ d.
Proof.
  intros Hne Ha Hd. unfold replace.
  destruct old as [|h tl] eqn:E; [congruence|]. rewrite <- E in *.
  rewrite replace_go_keep by exact Ha.
  rewrite replace_go_hit by exact Hne. simpl. f_equal.
  rewrite <- (app_nil_r d) at 1.
  rewrite replace_go_keep; [now rewrite app_nil_r|].
  intros j Hj. rewrite app_nil_r.
  apply contains_false_skipn; [exact Hd|lia].
Qed.

End PyStrFacts.

(** ** Regular expressions *)

Module ReFacts.
Import PyStr PyStrFacts Re.

Section Star.
Variable rest : str -> option nat.

Lemma star_None (greedy : bool) (t : str) :
  star rest greedy t = None <->
  forall k, k <= length t -> rest (skipn k t) = None.
Proof.
  induction t as [|x t IH]; simpl.
  - split.
    + intros H k Hk. now replace k with 0 by lia.
    + intros H. apply (H 0). lia.
  - split.
    + intros H [|k] Hk.
      * simpl. destruct greedy.
        -- destruct (star rest true t); [discriminate|exact H].
        -- destruct (rest (x :: t)); [discriminate|reflexivity].
      * simpl. apply IH; [|lia]. destruct greedy.
        -- destruct (star rest true t); [discriminate|reflexivity].
        -- destruct (rest (x :: t)); [discriminate|].
           destruct (star rest false t); [discriminate|reflexivity].
    + intros H.
      assert (Ht : star rest greedy t = None).
      { apply IH. intros k Hk. apply (H (S k)). lia. }
      rewrite Ht. pose proof (H 0 ltac:(lia)) as H0. simpl in H0.
      rewrite H0. now destruct greedy.
Qed.

(** A greedy star stops at the last place where the rest matches. *)
Lemma star_greedy_Some (t : str) (n : nat) :
  star rest true t = Some n ->
  exists k m, n = k + m /\ k <= length t /\ rest (skipn k t) = Some m /\
              forall k', k < k' -> k' <= length t -> rest (skipn k' t) = None.
Proof.
  revert n; induction t as [|x t IH]; simpl; intros n H.
  - exists 0, n. repeat split; auto; try lia; intros; lia.
  - destruct (star rest true t) as [n'|] eqn:E.
    + injection H as <-. destruct (IH n' eq_refl) as (k & m & -> & Hk & Hm & Hlast).
      exists (S k), m. repeat split; auto; try lia.
      intros [|k'] Hlt Hle; [lia|]. simpl. apply Hlast; lia.
    + exists 0, n. repeat split; auto; try lia.
      intros [|k'] Hlt Hle; [lia|]. simpl.
      apply (proj1 (star_None true t) E). lia.
Qed.

(** A lazy star stops at the first place where the rest matches. *)
Lemma star_lazy_Some (t : str) (n : nat) :
  star rest false t = Some n ->
  exists k m, n = k + m /\ k <= length t /\ rest (skipn k t) = Some m /\
              forall k', k' < k -> rest (skipn k' t) = None.
Proof.
  revert n; induction t as [|x t IH]; simpl; intros n H.
  - exists 0, n. repeat split; auto; try lia; intros; lia.
  - destruct (rest (x :: t)) as [m|] eqn:E.
    + injection H as <-. exists 0, m. repeat split; auto; try lia; intros; lia.
    + destruct (star rest false t) as [n'|] eqn:E'; [|discriminate].
      injection H as <-.
      destruct (IH n' eq_refl) as (k & m & -> & Hk & Hm & Hfirst).
      exists (S k), m. repeat split; auto; try lia.
      intros [|k'] Hlt; [exact E|]. simpl. apply Hfirst. lia.
Qed.

End Star.

Lemma search_from_None (r : regex) (s : str) (i : nat) :
  search_from r s i = None <->
  forall k, k <= length s -> match_here r (skipn k s) = None.
Proof.
  revert i; induction s as [|x s IH]; intros i; simpl.
  - destruct (match_here r []) eqn:E; split; try discriminate; auto.
    + intros H. specialize (H 0 ltac:(lia)). simpl in H. congruence.
    + intros _ k Hk. now replace k with 0 by lia.
  - destruct (match_here r (x :: s)) eqn:E.
    + split; [discriminate|]. intros H. specialize (H 0 ltac:(lia)).
      simpl in H. congruence.
    + rewrite IH. split.
      * intros H [|k] Hk; [exact E|]. simpl. apply H. lia.
      * intros H k Hk. apply (H (S k)). lia.
Qed.

(** [search] returns the leftmost place where the pattern matches. *)
Lemma search_from_Some (r : regex) (s : str) (i j n : nat) :
  search_from r s i = Some (j, n) ->
  exists k, j = i + k /\ k <= length s /\ match_here r (skipn k s) = Some n /\
            forall k', k' < k -> match_here r (skipn k' s) = None.
Proof.
  revert i; induction s as [|x s IH]; intros i; simpl.
  - destruct (match_here r []) eqn:E; [|discriminate].
    intros [= <- <-]. exists 0. repeat split; auto; try lia; intros; lia.
  - destruct (match_here r (x :: s)) eqn:E.
    + intros [= <- <-]. exists 0. repeat split; auto; try lia; intros; lia.
    + intros H. destruct (IH _ H) as (k & -> & Hk & Hm & Hfirst).
      exists (S k). repeat split; auto; try lia.
      intros [|k'] Hlt; [exact E|]. simpl. apply Hfirst. lia.
Qed.

Lemma close_here_Some (c t : str) (m : nat) :
  close_here c t = Some m <-> startswith c t = true /\ m = length c.
Proof.
  unfold close_here. simpl. destruct (startswith c t); simpl.
  - split; [intros [= <-]; split; auto; lia|intros [_ ->]; f_equal; lia].
  - split; [discriminate|intros [? _]; discriminate].
Qed.

Lemma close_here_None (c t : str) :
  close_here c t = None <-> startswith c t = false.
Proof.
  unfold close_here. simpl. destruct (startswith c t); simpl;
    split; congruence.
Qed.

Lemma match_here_tagged (o c s : str) (g : bool) :
  match_here (tagged o g c) s =
  if startswith o s
  then option_map (Nat.add (length o)) (star (close_here c) g (skipn (length o) s))
  else None.
Proof. reflexivity. Qed.

Lemma skipn_app_exact (a r : str) : skipn (length a) (a ++ r) = r.
Proof. induction a; simpl; auto. Qed.

Lemma skipn_app_plus (a r : str) (k : nat) :
  skipn (length a + k) (a ++ r) = skipn k r.
Proof. induction a; simpl; auto. Qed.

Lemma split_at (s : str) (k : nat) :
  k <= length s -> exists a, s = a ++ skipn k s /\ length a = k.
Proof.
  intros H. exists (firstn k s). split.
  - symmetry. apply firstn_skipn.
  - apply firstn_length_le. exact H.
Qed.

(** What a successful search for [open], a star and [close] found. *)
Lemma search_tagged_Some (o c s : str) (g : bool) (i n : nat) :
  search (tagged o g c) s = Some (i, n) ->
  exists a b d,
    s = a ++ o ++ b ++ c ++ d /\ i = length a /\
    n = length o + length b + length c /\
    (forall j, j < length a -> match_here (tagged o g c) (skipn j s) = None) /\
    (if g
     then forall j, length b < j -> j <= length (b ++ c ++ d) ->
                    startswith c (skipn j (b ++ c ++ d)) = false
     else forall j, j < length b ->
                    startswith c (skipn j (b ++ c ++ d)) = false).
Proof.
  intros H. apply search_from_Some in H as (k & -> & Hk & Hm & Hleft).
  simpl. rewrite match_here_tagged in Hm.
  destruct (startswith o (skipn k s)) eqn:Ho; [|discriminate].
  apply startswith_inv in Ho.
  destruct (split_at s k Hk) as (a & Hs & Ha).
  set (t := skipn (length o) (skipn k s)) in *.
  destruct (star (close_here c) g t) as [n1|] eqn:Hstar; [|discriminate].
  injection Hm as <-.
  assert (Hcases :
    exists kb, n1 = kb + length c /\ kb <= length t /\
               startswith c (skipn kb t) = true /\
               (if g
                then forall j, kb < j -> j <= length t ->
                               startswith c (skipn j t) = false
                else forall j, j < kb -> startswith c (skipn j t) = false)).
  { destruct g.
    - apply star_greedy_Some in Hstar as (kb & m & -> & Hkb & Hc & Hlast).
      apply close_here_Some in Hc as [Hc ->].
      exists kb. repeat split; auto.
      intros j H1 H2. apply close_here_None. now apply Hlast.
    - apply star_lazy_Some in Hstar as (kb & m & -> & Hkb & Hc & Hfirst).
      apply close_here_Some in Hc as [Hc ->].
      exists kb. repeat split; auto.
      intros j H1. apply close_here_None. now apply Hfirst. }
  destruct Hcases as (kb & -> & Hkb & Hc & Hextreme).
  apply startswith_inv in Hc.
  destruct (split_at t kb Hkb) as (b & Ht & Hb).
  exists a, b, (skipn (length c) (skipn kb t)).
  rewrite <- Hc, <- Ht, <- Ho. subst kb k.
  repeat split; auto; try lia.
Qed.

(** The leftmost match starts at the first [open]. *)
Lemma leftmost_is_first_open (o c a b d : str) (g : bool) :
  (forall j, j < length a ->
             match_here (tagged o g c) (skipn j (a ++ o ++ b ++ c ++ d)) = None) ->
  forall j, j < length a ->
            startswith o (skipn j (a ++ o ++ b ++ c ++ d)) = false.
Proof.
  intros Hleft j Hj. specialize (Hleft j Hj).
  rewrite match_here_tagged in Hleft.
  set (s := a ++ o ++ b ++ c ++ d) in *.
  destruct (startswith o (skipn j s)) eqn:Ho; [|reflexivity]. exfalso.
  destruct (star (close_here c) g (skipn (length o) (skipn j s))) eqn:E;
    [discriminate|].
  rewrite star_None in E.
  assert (Hlen : length s = length a + length o + length b + length c + length d).
  { unfold s. rewrite !length_app. lia. }
  specialize (E (length a + length b - j)).
  rewrite !skipn_skipn, length_skipn in E.
  replace (length a + length b - j + (length o + j))
    with (length (a ++ o ++ b) + 0) in E by (rewrite !length_app; lia).
  unfold s in E at 2.
  replace (a ++ o ++ b ++ c ++ d) with ((a ++ o ++ b) ++ c ++ d) in E
    by (now rewrite <- !app_assoc).
  rewrite skipn_app_plus in E. simpl in E.
  rewrite close_here_None, startswith_app in E.
  specialize (E ltac:(lia)). discriminate.
Qed.

(** After a greedy match no [close] is left. *)
Lemma greedy_is_last_close (c b d : str) :
  c <> [] ->
  (forall j, length b < j -> j <= length (b ++ c ++ d) ->
             startswith c (skipn j (b ++ c ++ d)) = false) ->
  contains c d = false.
Proof.
  intros Hc H. destruct (contains c d) eqn:E; [|reflexivity]. exfalso.
  apply contains_iff in E as (x & y & ->).
  specialize (H (length (b ++ c ++ x) + 0)).
  replace (b ++ c ++ x ++ c ++ y) with ((b ++ c ++ x) ++ c ++ y) in H
    by (now rewrite <- !app_assoc).
  rewrite skipn_app_plus in H. simpl in H. rewrite startswith_app in H.
  assert (length c <> 0) by (destruct c; simpl; congruence).
  rewrite !length_app in H.
  specialize (H ltac:(lia) ltac:(lia)). discriminate.
Qed.

Lemma match_here_span (o c b d : str) (g : bool) :
  match_here (tagged o g c) (o ++ b ++ c ++ d) <> None.
Proof.
  rewrite match_here_tagged, startswith_app, skipn_app_exact.
  destruct (star (close_here c) g (b ++ c ++ d)) eqn:E; [discriminate|].
  rewrite star_None in E. specialize (E (length b + 0)).
  rewrite skipn_app_plus in E. simpl in E.
  rewrite close_here_None, startswith_app, length_app in E.
  specialize (E ltac:(lia)). discriminate.
Qed.

(** The search fails exactly on the texts without a span. *)
Lemma search_tagged_None (o c s : str) (g : bool) :
  search (tagged o g c) s = None <-> ~ has_span o c s.
Proof.
  split.
  - intros H (a & b & d & ->). unfold search in H.
    rewrite search_from_None in H.
    specialize (H (length a + 0)). rewrite skipn_app_plus in H. simpl in H.
    rewrite length_app in H.
    apply (match_here_span o c b d g). apply H. lia.
  - intros H. destruct (search (tagged o g c) s) as [[i n]|] eqn:E;
      [|reflexivity].
    exfalso. apply H.
    apply search_tagged_Some in E as (a & b & d & -> & _).
    now exists a, b, d.
Qed.

(** The lazy search finds the first [open] and the first [close]
    after it. *)
Lemma search_tagged_lazy (o c a b d : str) :
  (forall j, j < length a ->
             startswith o (skipn j (a ++ o ++ b ++ c ++ d)) = false) ->
  (forall j, j < length b -> startswith c (skipn j (b ++ c ++ d)) = false) ->
  search (tagged o false c) (a ++ o ++ b ++ c ++ d)
  = Some (length a, length o + length b + length c).
Proof.
  intros Ho Hc. set (s := a ++ o ++ b ++ c ++ d).
  destruct (search (tagged o false c) s) as [[i n]|] eqn:E.
  - apply search_from_Some in E as (k & -> & Hk & Hm & Hleft). simpl.
    unfold s in *. clear s.
    assert (k = length a) as ->.
    { destruct (Nat.lt_trichotomy k (length a)) as [Hlt|[Heq|Hgt]]; auto.
      - rewrite match_here_tagged, (Ho k Hlt) in Hm. discriminate.
      - specialize (Hleft _ Hgt). exfalso.
        replace (length a) with (length a + 0) in Hleft by lia.
        rewrite skipn_app_plus in Hleft.
        now apply match_here_span in Hleft. }
    replace (length a) with (length a + 0) in Hm by lia.
    rewrite skipn_app_plus, skipn_O in Hm.
    rewrite match_here_tagged, startswith_app, skipn_app_exact in Hm.
    destruct (star (close_here c) false (b ++ c ++ d)) as [n1|] eqn:Hstar;
      [|discriminate].
    injection Hm as <-.
    apply star_lazy_Some in Hstar as (kb & m & -> & Hkb & Hm & Hfirst).
    apply close_here_Some in Hm as [Hm ->].
    assert (kb = length b) as ->.
    { destruct (Nat.lt_trichotomy kb (length b)) as [Hlt|[Heq|Hgt]]; auto.
      - rewrite (Hc kb Hlt) in Hm. discriminate.
      - specialize (Hfirst _ Hgt). exfalso.
        replace (length b) with (length b + 0) in Hfirst by lia.
        rewrite skipn_app_plus in Hfirst. simpl in Hfirst.
        rewrite close_here_None, startswith_app in Hfirst. discriminate. }
    do 2 f_equal. lia.
  - exfalso. apply search_tagged_None in E. apply E. now exists a, b, d.
Qed.

End ReFacts.

(** ** Response decoder *)

Module DecoderFacts.
Import PyStr PyStrFacts Re ReFacts.

Lemma firstn_app_exact (m d : str) : firstn (length m) (m ++ d) = m.
Proof. induction m; simpl; congruence. Qed.

Lemma group0_span (a m d : str) :
  group0 (a ++ m ++ d) (length a, length m) = m.
Proof.
  unfold group0. cbn [fst snd]. now rewrite skipn_app_exact, firstn_app_exact.
Qed.

Lemma group1_span (o c a b d : str) :
  group1 o c (a ++ o ++ b ++ c ++ d) (length a, length o + length b + length c)
  = b.
Proof.
  unfold group1. cbn [fst snd].
  replace (a ++ o ++ b ++ c ++ d) with ((a ++ o) ++ b ++ c ++ d)
    by (now rewrite <- app_assoc).
  rewrite <- (length_app a o), skipn_app_exact.
  replace (length o + length b + length c - length o - length c)
    with (length b) by lia.
  apply firstn_app_exact.
Qed.

Lemma startswith_app_false (o x t : str) :
  startswith o t = false -> startswith (o ++ x) t = false.
Proof.
  intros H. destruct (startswith (o ++ x) t) eqn:E; [|reflexivity].
  apply startswith_iff in E as [r ->].
  rewrite <- app_assoc, startswith_app in H. discriminate.
Qed.

Lemma contains_suffix_false (x c d : str) :
  contains c d = false -> contains (x ++ c) d = false.
Proof.
  intros H. destruct (contains (x ++ c) d) eqn:E; [|reflexivity].
  apply contains_iff in E as (u & v & ->).
  assert (contains c (u ++ (x ++ c) ++ v) = true); [|congruence].
  apply contains_iff. exists (u ++ x), v. now rewrite <- !app_assoc.
Qed.

Lemma has_span_app (o c s t : str) : has_span o c s -> has_span o c (s ++ t).
Proof.
  intros (a & b & d & ->). exists a, b, (d ++ t). now rewrite <- !app_assoc.
Qed.

Lemma repair_cases (action lang : str) :
  repair action lang = action \/
  (repair action lang = action ++ close_tag lang /\
   has_span (open_tag lang) (close_tag lang) (repair action lang)).
Proof.
  unfold repair.
  destruct (contains (open_tag lang) action) eqn:E; [|now left].
  destruct (contains (close_tag lang) action); [now left|].
  right. split; [reflexivity|]. cbn [andb negb].
  apply contains_iff in E as (x & y & ->).
  exists x, y, []. now rewrite <- !app_assoc, app_nil_r.
Qed.

Lemma repair_extends (action lang : str) :
  exists t, repair action lang = action ++ t.
Proof.
  destruct (repair_cases action lang) as [-> | [-> _]].
  - exists []. now rewrite app_nil_r.
  - now eexists.
Qed.

Lemma parse_response_unfold (text : str) :
  parse_response text = repair (repair (repair text "bash") "ipython") "browse".
Proof. reflexivity. Qed.

Lemma decode_total (s : str) : decoded_variant (decode s).
Proof.
  unfold decode.
  destruct (search finish_re s); [exact I|].
  destruct (search bash_re s).
  { destruct (eqb _ _); exact I. }
  destruct (search ipython_re s); [exact I|].
  destruct (search browse_re s); exact I.
Qed.

(** The removal of the span a greedy search matched: the text before
    the first [open] and the text after the last [close]. *)
Lemma thought_of_greedy (o c s : str) (i n : nat) :
  o <> [] -> c <> [] ->
  search (tagged o true c) s = Some (i, n) ->
  exists a b d,
    s = a ++ o ++ b ++ c ++ d /\ i = length a /\
    n = length o + length b + length c /\
    (forall j, j < length a -> startswith o (skipn j s) = false) /\
    contains c d = false /\
    thought_of s (i, n) = strip (a ++ d).
Proof.
  intros Ho Hc H.
  apply search_tagged_Some in H as (a & b & d & -> & -> & -> & Hleft & Hlast).
  pose proof (leftmost_is_first_open o c a b d true Hleft) as Hfirst.
  pose proof (greedy_is_last_close c b d Hc Hlast) as Hend.
  exists a, b, d. repeat split; auto.
  unfold thought_of.
  replace (a ++ o ++ b ++ c ++ d) with (a ++ (o ++ b ++ c) ++ d) in *
    by (now rewrite <- !app_assoc).
  replace (length o + length b + length c) with (length (o ++ b ++ c))
    by (rewrite !length_app; lia).
  rewrite group0_span. f_equal.
  apply replace_single.
  - destruct o; [congruence|discriminate].
  - intros j Hj. apply startswith_app_false. now apply Hfirst.
  - replace (o ++ b ++ c) with ((o ++ b) ++ c) by (now rewrite <- app_assoc).
    now apply contains_suffix_false.
Qed.

End DecoderFacts.

Import PyStr PyStrFacts Re ReFacts DecoderFacts.

(** C3: a text with a [<finish>...</finish>] span and an
    [<execute_bash>...</execute_bash>] span decodes to a finish action.
    The span matched runs from the first [<finish>] to the last
    [</finish>], and the thought is the text around it, with that span
    removed, trimmed. *)
Theorem decode_finish_before_bash (s : str) :
  has_span "<finish>" "</finish>" s ->
  has_span "<execute_bash>" "</execute_bash>" s ->
  exists a g d,
    s = a ++ "<finish>" ++ g ++ "</finish>" ++ d /\
    (forall j, j < length a -> startswith "<finish>" (skipn j s) = false) /\
    contains "</finish>" d = false /\
    decode s = AgentFinishAction (Some (strip (a ++ d))).
Proof.
  intros Hfinish _.
  destruct (search finish_re s) as [[i n]|] eqn:E.
  - pose proof E as E'.
    apply thought_of_greedy in E' as (a & g & d & Hs & _ & _ & Hfirst & Hlast & Ht);
      try discriminate.
    exists a, g, d. repeat split; auto.
    unfold decode. rewrite E. now rewrite Ht.
  - apply search_tagged_None in E. contradiction.
Qed.

Lemma decode_finish_before_bash_witness :
  exists a g d,
    ("ok <finish>bye</finish> <execute_bash>ls</execute_bash>" : str)
    = a ++ "<finish>" ++ g ++ "</finish>" ++ d /\
    (forall j, j < length a ->
       startswith "<finish>"
         (skipn j ("ok <finish>bye</finish> <execute_bash>ls</execute_bash>" : str))
       = false) /\
    contains "</finish>" d = false /\
    decode "ok <finish>bye</finish> <execute_bash>ls</execute_bash>"
    = AgentFinishAction (Some (strip (a ++ d))).
Proof.
  apply (decode_finish_before_bash
           "ok <finish>bye</finish> <execute_bash>ls</execute_bash>").
  - exists ("ok " : str), ("bye" : str), (" <execute_bash>ls</execute_bash>" : str).
    reflexivity.
  - exists ("ok <finish>bye</finish> " : str), ("ls" : str), ([] : str).
    reflexivity.
Defined.

(** C4: in a text without a finish span, let the first
    [<execute_bash>] be followed by [cmd] and the first
    [</execute_bash>] after it.  If [cmd] trimmed is [exit] the decoder
    returns a finish action; otherwise it returns a run-command action
    whose command is [cmd] trimmed. *)
Theorem decode_bash_exit_or_run (a cmd d : str) :
  let s := a ++ "<execute_bash>" ++ cmd ++ "</execute_bash>" ++ d in
  ~ has_span "<finish>" "</finish>" s ->
  (forall j, j < length a -> startswith "<execute_bash>" (skipn j s) = false) ->
  (forall j, j < length cmd ->
     startswith "</execute_bash>" (skipn j (cmd ++ "</execute_bash>" ++ d)) = false) ->
  (strip cmd = "exit" -> decode s = AgentFinishAction None) /\
  (strip cmd <> "exit" ->
   decode s =
   CmdRunAction
     (strip cmd)
     (strip (replace s ("<execute_bash>" ++ cmd ++ "</execute_bash>") []))).
Proof.
  intros s Hfinish Hopen Hclose.
  assert (Hdecode :
    decode s =
    if eqb (strip cmd) "exit"
    then AgentFinishAction None
    else CmdRunAction
           (strip cmd)
           (strip (replace s ("<execute_bash>" ++ cmd ++ "</execute_bash>") []))).
  { unfold decode.
    apply (search_tagged_None _ _ _ true) in Hfinish.
    fold finish_re in Hfinish. rewrite Hfinish.
    unfold bash_re. subst s.
    rewrite (search_tagged_lazy _ _ a cmd d Hopen Hclose).
    rewrite group1_span, strip_idem.
    destruct (eqb (strip cmd) "exit"); [reflexivity|].
    f_equal. unfold thought_of. do 2 f_equal.
    replace (a ++ "<execute_bash>" ++ cmd ++ "</execute_bash>" ++ d)
      with (a ++ ("<execute_bash>" ++ cmd ++ "</execute_bash>") ++ d)
      by (now rewrite <- !app_assoc).
    replace (length ("<execute_bash>" : str) + length cmd
             + length ("</execute_bash>" : str))
      with (length ("<execute_bash>" ++ cmd ++ "</execute_bash>"))
      by (rewrite !length_app; lia).
    apply group0_span. }
  rewrite Hdecode. split; intros H.
  - apply eqb_eq in H. now rewrite H.
  - apply eqb_neq in H. now rewrite H.
Qed.

Lemma decode_bash_exit_or_run_witness :
  decode "<execute_bash>exit</execute_bash>" = AgentFinishAction None
  /\ decode "run <execute_bash> ls </execute_bash>"
     = CmdRunAction "ls" "run".
Proof.
  split.
  - apply (decode_bash_exit_or_run [] "exit" []).
    + apply (search_tagged_None _ _ _ true). reflexivity.
    + simpl. intros j Hj. lia.
    + intros j Hj.
      do 4 (destruct j as [|j]; [reflexivity|]). simpl in Hj. lia.
    + reflexivity.
  - apply (decode_bash_exit_or_run "run " " ls " []).
    + apply (search_tagged_None _ _ _ true). reflexivity.
    + intros j Hj.
      do 4 (destruct j as [|j]; [reflexivity|]). simpl in Hj. lia.
    + intros j Hj.
      do 4 (destruct j as [|j]; [reflexivity|]). simpl in Hj. lia.
    + vm_compute. discriminate.
Defined.

(** C5, as the code behaves: for the text
    [<execute_ipython>print(1)</execute_ipython], whose closing tag lacks
    its last character, the repair appends a whole closing tag and the
    decoder returns a run-interpreter-cell action, but the code it
    extracts is [print(1)</execute_ipython]: the truncated tag stays in
    it.  When the closing tag is missing altogether the extracted code
    is [print(1)]. *)
Theorem decode_truncated_ipython :
  parse_response "<execute_ipython>print(1)</execute_ipython"
  = "<execute_ipython>print(1)</execute_ipython" ++ "</execute_ipython>"
  /\ decode (parse_response "<execute_ipython>print(1)</execute_ipython")
     = IPythonRunCellAction "print(1)</execute_ipython" []
                            jupyter_kernel_init_code
  /\ parse_response "<execute_ipython>print(1)"
     = "<execute_ipython>print(1)" ++ "</execute_ipython>"
  /\ decode (parse_response "<execute_ipython>print(1)")
     = IPythonRunCellAction "print(1)" [] jupyter_kernel_init_code.
Proof. repeat split; vm_compute; reflexivity. Qed.

(** C5 as stated fails: the code extracted from
    [<execute_ipython>print(1)</execute_ipython] is not [print(1)]. *)
Lemma decode_truncated_ipython_not_print1 :
  ~ exists thought kernel_init_code,
      decode (parse_response "<execute_ipython>print(1)</execute_ipython")
      = IPythonRunCellAction "print(1)" thought kernel_init_code.
Proof.
  intros (thought & kernel_init_code & H).
  vm_compute in H. discriminate H.
Qed.

(** C8: when none of the four patterns matches the text the decoder
    looks at, no closing tag was appended, and the result is a
    send-message action whose content is the response text itself and
    that waits for a reply.  Every response text decodes to one action,
    of one of the five decoded variants. *)
Theorem decode_plain_message (text : str) :
  ~ has_span "<finish>" "</finish>" (parse_response text) ->
  ~ has_span "<execute_bash>" "</execute_bash>" (parse_response text) ->
  ~ has_span "<execute_ipython>" "</execute_ipython>" (parse_response text) ->
  ~ has_span "<execute_browse>" "</execute_browse>" (parse_response text) ->
  parse_response text = text
  /\ decode (parse_response text) = MessageAction text true
  /\ forall response : str,
       exists! a, decode (parse_response response) = a /\ decoded_variant a.
Proof.
  intros Hfinish Hbash Hipython Hbrowse.
  assert (Hsame : parse_response text = text).
  { rewrite parse_response_unfold in *.
    destruct (repair_cases text "bash") as [E1 | [_ H1]].
    - rewrite E1 in *.
      destruct (repair_cases text "ipython") as [E2 | [_ H2]].
      + rewrite E2 in *.
        destruct (repair_cases text "browse") as [E3 | [_ H3]]; [exact E3|].
        exfalso. apply Hbrowse. exact H3.
      + exfalso. apply Hipython.
        destruct (repair_extends (repair text "ipython") "browse") as [t ->].
        apply has_span_app. exact H2.
    - exfalso. apply Hbash.
      destruct (repair_extends (repair (repair text "bash") "ipython") "browse")
        as [t ->].
      destruct (repair_extends (repair text "bash") "ipython") as [t' ->].
      do 2 apply has_span_app. exact H1. }
  split; [exact Hsame|]. split.
  - rewrite Hsame in *. unfold decode.
    apply (search_tagged_None _ _ _ true) in Hfinish.
    apply (search_tagged_None _ _ _ false) in Hbash.
    apply (search_tagged_None _ _ _ false) in Hipython.
    apply (search_tagged_None _ _ _ true) in Hbrowse.
    fold finish_re in Hfinish. fold bash_re in Hbash.
    fold ipython_re in Hipython. fold browse_re in Hbrowse.
    now rewrite Hfinish, Hbash, Hipython, Hbrowse.
  - intros response. exists (decode (parse_response response)). split.
    + split; [reflexivity|apply decode_total].
    + intros a [H _]. exact H.
Qed.

Lemma decode_plain_message_witness :
  parse_response "Which file do you mean?" = "Which file do you mean?"
  /\ decode (parse_response "Which file do you mean?")
     = MessageAction "Which file do you mean?" true
  /\ forall response : str,
       exists! a, decode (parse_response response) = a /\ decoded_variant a.
Proof.
  apply (decode_plain_message "Which file do you mean?").
  - apply (search_tagged_None _ _ _ true). reflexivity.
  - apply (search_tagged_None _ _ _ false). reflexivity.
  - apply (search_tagged_None _ _ _ false). reflexivity.
  - apply (search_tagged_None _ _ _ true). reflexivity.
Defined.

(** ** Observation formatter *)

Module FormatterFacts.

Lemma truncate_observation_short (observation : str) (max_chars : Z) :
  (Z.of_nat (length observation) <= max_chars)%Z ->
  truncate_observation observation max_chars = observation.
Proof.
  intros H. unfold truncate_observation.
  now rewrite (proj2 (Z.leb_le _ _) H).
Qed.

(** Above a ceiling of at least 2 the result is the first [half]
    characters, the marker and the last [half] characters. *)
Lemma truncate_observation_long (observation : str) (max_chars : Z) :
  (2 <= max_chars)%Z ->
  (max_chars < Z.of_nat (length observation))%Z ->
  let half := Z.to_nat (max_chars / 2) in
  truncate_observation observation max_chars
  = firstn half observation ++ truncation_marker
    ++ skipn (length observation - half) observation
  /\ length (firstn half observation) = half
  /\ length (skipn (length observation - half) observation) = half.
Proof.
  intros H2 Hlong half.
  assert (Hhalf : (1 <= max_chars / 2 <= max_chars)%Z).
  { split.
    - apply Z.div_le_lower_bound; lia.
    - apply Z.div_le_upper_bound; lia. }
  assert (Hle : half <= length observation) by (unfold half; lia).
  split; [|split].
  - unfold truncate_observation.
    rewrite (proj2 (Z.leb_gt _ _) Hlong).
    unfold PyStr.slice_to, PyStr.slice_from.
    rewrite (proj2 (Z.ltb_ge _ _)) by lia.
    rewrite (proj2 (Z.ltb_lt _ _)) by lia.
    rewrite Z.min_l by lia. rewrite Z.max_r by lia.
    fold half. do 3 f_equal. unfold half. lia.
  - apply firstn_length_le. exact Hle.
  - rewrite length_skipn. lia.
Qed.

End FormatterFacts.

(** C6, at the ceiling 1: the formatter keeps the whole observation
    after the marker, where a result cut to the first 0 and the last 0
    characters would be the marker alone.  ([observation[-0:]] is the
    whole string.) *)
Theorem truncate_observation_ceiling_one :
  truncate_observation "ab" 1 = truncation_marker ++ "ab"
  /\ truncate_observation "ab" 1
     <> firstn 0 "ab" ++ truncation_marker ++ skipn (length ("ab" : str) - 0) "ab".
Proof. split; [reflexivity|vm_compute; discriminate]. Qed.

(** The statement of C6 holds at every ceiling from 2 on, the default
    10000 included. *)
Lemma truncate_observation_default (observation : str) :
  ((Z.of_nat (length observation) <= default_max_chars)%Z ->
   truncate_observation observation default_max_chars = observation)
  /\ ((default_max_chars < Z.of_nat (length observation))%Z ->
      truncate_observation observation default_max_chars
      = firstn 5000 observation ++ truncation_marker
        ++ skipn (length observation - 5000) observation).
Proof.
  split.
  - apply FormatterFacts.truncate_observation_short.
  - intros H.
    apply (FormatterFacts.truncate_observation_long observation default_max_chars);
      [unfold default_max_chars; lia|exact H].
Qed.

(** ** History renderer *)

(** C7, for a summary result: the body of the message is the content
    of the observation as it is, without the [OBSERVATION:] line and
    without truncation. *)
Theorem summary_observation_message (c : str) :
  get_observation_message (SummaryObservation c)
  = Some {| role := user; content := c |}
  /\ get_observation_message (SummaryObservation "done")
     <> Some {| role := user;
                content := "OBSERVATION:" ++ nl
                           ++ truncate_observation "done" default_max_chars |}.
Proof. split; [reflexivity|vm_compute; discriminate]. Qed.

(** Command and browser results are rendered as C7 says. *)
Lemma command_observation_message (c : str) (command_id exit_code : Z) :
  get_observation_message (CmdOutputObservation c command_id exit_code)
  = Some {| role := user;
            content :=
              ("OBSERVATION:" ++ nl ++ truncate_observation c default_max_chars)
              ++ nl ++ "[Command " ++ PyStr.of_int command_id
              ++ " finished with exit code " ++ PyStr.of_int exit_code ++ "]]" |}.
Proof. reflexivity. Qed.

Lemma browser_observation_message (c : str) :
  get_observation_message (BrowserOutputObservation c)
  = Some {| role := user;
            content := "OBSERVATION:" ++ nl
                       ++ truncate_observation c default_max_chars |}.
Proof. reflexivity. Qed.

(** An interpreter result is truncated after the [OBSERVATION:] line
    was put in front of it: an output of 9990 characters is cut although
    it is under the ceiling. *)
Lemma interpreter_observation_message :
  let c : str := repeat "a"%char (Z.to_nat 9990) in
  truncate_observation c default_max_chars = c
  /\ option_map (fun m => Z.of_nat (length (content m)))
                (get_observation_message (IPythonRunCellObservation c))
     = Some (5000 + Z.of_nat (length truncation_marker) + 5000)%Z
  /\ Z.of_nat
       (length ("OBSERVATION:" ++ nl ++ truncate_observation c default_max_chars))
     = (13 + 9990)%Z.
Proof. vm_compute. repeat split. Qed.

Module RendererFacts.

Lemma Role_eqb_eq (a b : Role) : Role_eqb a b = true <-> a = b.
Proof. destruct a, b; simpl; split; congruence. Qed.

Lemma latest_user_index_None (ms : list Message) :
  latest_user_index ms = None <-> Forall (fun m => role m <> user) ms.
Proof.
  induction ms as [|m ms IH]; simpl.
  - split; auto.
  - destruct (latest_user_index ms) as [i|].
    + split; [discriminate|]. intros H. inversion H; subst.
      destruct IH as [_ IH]. specialize (IH H3). discriminate.
    + destruct (Role_eqb (role m) user) eqn:E.
      * split; [discriminate|]. intros H. inversion H; subst.
        apply Role_eqb_eq in E. contradiction.
      * split; auto. intros _. constructor; [|now apply IH].
        intros H. apply Role_eqb_eq in H. congruence.
Qed.

(** [latest_user_index] is the position of the last user message. *)
Lemma latest_user_index_Some (ms : list Message) (i : nat) :
  latest_user_index ms = Some i ->
  exists m, nth_error ms i = Some m /\ role m = user /\
            forall j m', i < j -> nth_error ms j = Some m' -> role m' <> user.
Proof.
  revert i; induction ms as [|m ms IH]; simpl; intros i H; [discriminate|].
  destruct (latest_user_index ms) as [k|] eqn:E.
  - injection H as <-. destruct (IH k eq_refl) as (m0 & Hn & Hr & Hlast).
    exists m0. repeat split; auto.
    intros [|j] m' Hj Hn'; [lia|]. simpl in Hn'. apply (Hlast j); auto. lia.
  - destruct (Role_eqb (role m) user) eqn:Er; [|discriminate].
    injection H as <-. exists m. repeat split; auto.
    + now apply Role_eqb_eq.
    + intros [|j] m' Hj Hn'; [lia|]. simpl in Hn'.
      apply latest_user_index_None in E.
      rewrite Forall_forall in E. apply E. eapply nth_error_In; eauto.
Qed.

Lemma event_message_role (e : Event) (m : Message) :
  event_message e = Some m -> role m = user \/ role m = assistant.
Proof.
  destruct e as [[[|]|] a|o]; simpl.
  - destruct a; simpl; intros [= <-]; simpl; auto.
  - destruct a; simpl; intros [= <-]; simpl; auto.
  - destruct a; simpl; intros [= <-]; simpl; auto.
  - destruct o; simpl; intros [= <-]; simpl; auto.
Qed.

Lemma event_messages_roles (events : list Event) :
  Forall (fun m => role m = user \/ role m = assistant) (event_messages events).
Proof.
  induction events as [|e events IH]; simpl; [constructor|].
  destruct (event_message e) as [m|] eqn:E; [|exact IH].
  constructor; [|exact IH]. eapply event_message_role; eauto.
Qed.

Lemma append_content_roles (Q : Role -> Prop) (ms : list Message) (i : nat)
      (extra : str) :
  Forall (fun m => Q (role m)) ms ->
  Forall (fun m => Q (role m)) (append_content ms i extra).
Proof.
  revert i; induction ms as [|m ms IH]; intros i H; simpl; [constructor|].
  inversion H; subst. destruct i; constructor; auto.
Qed.

(** [append_content] changes the message at [i] and no other. *)
Lemma append_content_nth (ms : list Message) (i : nat) (extra : str)
      (m : Message) :
  nth_error ms i = Some m ->
  nth_error (append_content ms i extra) i
  = Some {| role := role m; content := content m ++ extra |}
  /\ forall j, j <> i -> nth_error (append_content ms i extra) j = nth_error ms j.
Proof.
  revert i; induction ms as [|m0 ms IH]; intros [|i] H; simpl in *;
    try discriminate.
  - injection H as ->. split; [reflexivity|].
    intros [|j] Hj; [congruence|reflexivity].
  - destruct (IH i H) as [H1 H2]. split; [exact H1|].
    intros [|j] Hj; [reflexivity|]. simpl. apply H2. congruence.
Qed.

Lemma one_system_message (sys ex : Message) (rest : list Message) :
  role sys = system -> role ex = user ->
  Forall (fun m => role m = user \/ role m = assistant) rest ->
  length (filter (fun m => Role_eqb (role m) system) (sys :: ex :: rest)) = 1.
Proof.
  intros Hsys Hex Hrest. cbn [filter]. rewrite Hsys, Hex. cbn [Role_eqb length].
  f_equal. induction Hrest as [|m rest [Hm|Hm] _ IH]; [reflexivity| |];
    cbn [filter]; rewrite Hm; exact IH.
Qed.

Lemma strip_head (c : ascii) (t : str) :
  PyStr.isspace c = false -> exists v, PyStr.strip (c :: t) = c :: v.
Proof.
  intros Hc. unfold PyStr.strip, PyStr.rstrip. simpl. rewrite Hc. simpl.
  destruct (PyStrFacts.lstrip_snoc (rev t) c Hc) as [v ->].
  rewrite rev_app_distr. simpl. now eexists.
Qed.

(** The worked example is never the exit sentinel. *)
Lemma example_is_not_exit (p : Prompt) :
  is_exit {| role := user; content := in_context_example p |} = false.
Proof.
  unfold is_exit. cbn [content].
  assert (H : exists t, in_context_example p = "H"%char :: t)
    by (eexists; reflexivity).
  destruct H as [t ->].
  destruct (strip_head "H"%char t eq_refl) as [v ->]. reflexivity.
Qed.

(** There is always a latest user message, at position 1 or later,
    and it decides what [_get_messages] returns. *)
Lemma get_messages_cases (p : Prompt) (st : State) :
  exists i m,
    latest_user_index (initial_messages p st) = Some i /\
    nth_error (initial_messages p st) i = Some m /\
    role m = user /\ 1 <= i /\
    _get_messages p st
    = if is_exit m then initial_messages p st
      else append_content (initial_messages p st) i (reminder st).
Proof.
  unfold _get_messages.
  destruct (latest_user_index (initial_messages p st)) as [i|] eqn:E.
  - destruct (latest_user_index_Some _ _ E) as (m & Hn & Hr & _).
    exists i, m. rewrite Hn. repeat split; auto.
    destruct i; [|lia]. simpl in Hn. injection Hn as <-. discriminate.
  - exfalso. apply latest_user_index_None in E.
    unfold initial_messages in E. simpl in E.
    inversion E as [|? ? _ E']; subst. inversion E'; subst. auto.
Qed.

End RendererFacts.

Import RendererFacts.

(** C10: the rendered list is the system message, then the worked
    example as a user message (with or without the reminder), then
    messages of role user or assistant only, so that it holds exactly
    one system message; some message has role user; and when no event
    renders as a user message, the reminder is appended to the worked
    example and to nothing else. *)
Theorem rendered_messages_shape (p : Prompt) (st : State) :
  exists ex rest,
    _get_messages p st
    = {| role := system; content := system_message p |} :: ex :: rest
    /\ role ex = user
    /\ (content ex = in_context_example p
        \/ content ex = in_context_example p ++ reminder st)
    /\ Forall (fun m => role m = user \/ role m = assistant) rest
    /\ length (filter (fun m => Role_eqb (role m) system) (_get_messages p st)) = 1
    /\ (exists m, In m (_get_messages p st) /\ role m = user)
    /\ (Forall (fun m => role m <> user) (event_messages (history st)) ->
        content ex = in_context_example p ++ reminder st
        /\ rest = event_messages (history st)).
Proof.
  pose proof (event_messages_roles (history st)) as Hroles.
  pose proof (example_is_not_exit p) as Hexample.
  assert (Hshape :
    exists ex rest,
      _get_messages p st
      = {| role := system; content := system_message p |} :: ex :: rest
      /\ role ex = user
      /\ (content ex = in_context_example p
          \/ content ex = in_context_example p ++ reminder st)
      /\ Forall (fun m => role m = user \/ role m = assistant) rest
      /\ (Forall (fun m => role m <> user) (event_messages (history st)) ->
          content ex = in_context_example p ++ reminder st
          /\ rest = event_messages (history st))).
  { unfold _get_messages, initial_messages.
    set (sys := {| role := system; content := system_message p |}).
    set (ex := {| role := user; content := in_context_example p |}) in *.
    set (evs := event_messages (history st)) in *.
    set (extra := reminder st).
    change ([sys; ex] ++ evs) with (sys :: ex :: evs).
    cbn [latest_user_index].
    destruct (latest_user_index evs) as [k|] eqn:E.
    - cbn [nth_error].
      destruct (latest_user_index_Some _ _ E) as (m & Hn & Hr & _).
      rewrite Hn.
      assert (Habsurd : Forall (fun m => role m <> user) evs -> False).
      { intros H. apply latest_user_index_None in H. congruence. }
      destruct (is_exit m).
      + exists ex, evs. split; [reflexivity|].
        split; [reflexivity|]. split; [now left|]. split; [exact Hroles|].
        intros H0. now apply Habsurd in H0.
      + cbn [append_content].
        exists ex, (append_content evs k extra). split; [reflexivity|].
        split; [reflexivity|]. split; [now left|].
        split;
          [now apply (append_content_roles (fun r => r = user \/ r = assistant))|].
        intros H0. now apply Habsurd in H0.
    - change (Role_eqb (role ex) user) with true. cbn iota.
      cbn [nth_error]. rewrite Hexample. cbn [append_content].
      exists {| role := role ex; content := content ex ++ extra |}, evs.
      split; [reflexivity|].
      split; [reflexivity|]. split; [now right|]. split; [exact Hroles|].
      intros _. split; reflexivity. }
  destruct Hshape as (ex & rest & Heq & Hex & Hcontent & Hrest & Hnone).
  exists ex, rest. rewrite Heq.
  split; [reflexivity|]. split; [exact Hex|]. split; [exact Hcontent|].
  split; [exact Hrest|].
  split; [now apply one_system_message|].
  split; [|exact Hnone].
  exists ex. split; [right; left; reflexivity|exact Hex].
Qed.

Lemma rendered_messages_shape_witness :
  let p := mkPrompt "docs" "example" "github" "prefix" "suffix" in
  let st := mkState [ActionEvent (Some AGENT) (MessageAction "hello" false)] 2 10 0 in
  exists ex rest,
    _get_messages p st
    = {| role := system; content := system_message p |} :: ex :: rest
    /\ content ex = in_context_example p ++ reminder st
    /\ rest = [ {| role := assistant; content := "hello" |} ].
Proof.
  intros p st.
  destruct (rendered_messages_shape p st)
    as (ex & rest & Hshape & _ & _ & _ & _ & _ & Hexample).
  exists ex, rest. split; [exact Hshape|].
  apply Hexample. repeat constructor. simpl. discriminate.
Defined.

(** ** Turn orchestrator *)

Module OrchestratorFacts.

Section Turn.
Variable W : Type.
Variable ag : Agent W.

Lemma latest_user_message_exit (st : State) (i : nat) (m : Message) :
  latest_user_index (initial_messages (prompt ag) st) = Some i ->
  nth_error (initial_messages (prompt ag) st) i = Some m ->
  is_exit m = true ->
  _get_messages (prompt ag) st = initial_messages (prompt ag) st
  /\ latest_user_message (_get_messages (prompt ag) st) = Some m.
Proof.
  intros Hi Hm Hexit.
  assert (H : _get_messages (prompt ag) st = initial_messages (prompt ag) st).
  { unfold _get_messages. now rewrite Hi, Hm, Hexit. }
  split; [exact H|].
  rewrite H. unfold latest_user_message. now rewrite Hi.
Qed.

Lemma bind_Ok {A B : Type} (m : M W A) (k : A -> M W B) (s s' : Store W)
      (a : A) :
  m s = (Ok a, s') -> bind m k s = k a s'.
Proof. intros H. unfold bind. now rewrite H. Qed.

Lemma bind_Raise {A B : Type} (m : M W A) (k : A -> M W B) (s s' : Store W)
      (e : Exception) :
  m s = (Raise e, s') -> bind m k s = (Raise e, s').
Proof. intros H. unfold bind. now rewrite H. Qed.

Lemma bind_OutOfFuel {A B : Type} (m : M W A) (k : A -> M W B)
      (s s' : Store W) :
  m s = (OutOfFuel, s') -> bind m k s = (OutOfFuel, s').
Proof. intros H. unfold bind. now rewrite H. Qed.

Lemma render_run (s : Store W) :
  render ag s = (Ok (_get_messages (prompt ag) (state s)), s).
Proof. reflexivity. Qed.

Lemma call_run {A : Type} (f : W -> A * W) (entry : A -> Call) (s : Store W) :
  call f entry s
  = (Ok (fst (f (world s))),
     {| state := state s;
        world := snd (f (world s));
        calls := calls s ++ [entry (fst (f (world s)))] |}).
Proof. unfold call. now destruct (f (world s)). Qed.

(** Without pre-emptive recovery, a turn whose latest user message
    is the sentinel returns the finish action and calls the
    completion service not once. *)
Lemma step_exit (fuel : nat) (st : State) (w : W) (m : Message) :
  latest_user_message (_get_messages (prompt ag) st) = Some m ->
  is_exit m = true ->
  preemptive_overflow ag w (_get_messages (prompt ag) st) = false ->
  fst (run_step ag fuel st w) = Ok (AgentFinishAction None)
  /\ completion_calls (snd (run_step ag fuel st w)) = 0
  /\ state (snd (run_step ag fuel st w)) = st.
Proof.
  intros Hm Hexit Hover.
  unfold run_step, step, preemptive_overflow in *.
  rewrite (bind_Ok _ _ _ _ _ (render_run _)). cbn [state].
  destruct (max_input_tokens ag) as [limit|];
    [destruct (memory_condenser ag) as [mc|]|].
  - erewrite bind_Ok.
    2:{ erewrite bind_Ok by apply call_run.
        cbn [world state calls]. rewrite Hover. reflexivity. }
    rewrite Hm, Hexit. cbn. auto.
  - erewrite bind_Ok by reflexivity. rewrite Hm, Hexit. cbn. auto.
  - erewrite bind_Ok by reflexivity. rewrite Hm, Hexit. cbn. auto.
Qed.

Lemma completion_loop_S (fuel : nat) (messages : list Message) :
  completion_loop ag (S fuel) None 0 messages
  = bind (try_completion ag messages)
         (fun r =>
            match r with
            | inl response' =>
                completion_loop ag fuel (Some response') 0 messages
            | inr _ =>
                match memory_condenser ag with
                | Some _ =>
                    bind (_retry_with_condense ag)
                         (fun _ =>
                            bind (render ag)
                                 (fun messages' =>
                                    completion_loop ag fuel None 0 messages'))
                | None => completion_loop ag fuel None 0 messages
                end
            end).
Proof. reflexivity. Qed.

Lemma completion_loop_done (fuel : nat) (response : str) (attempt : Z)
      (messages : list Message) :
  completion_loop ag fuel (Some response) attempt messages
  = ret (Some response, messages).
Proof. destruct fuel; reflexivity. Qed.

(** *** A failed condensation ends the turn *)

Lemma fatal_last_pure {A : Type} (m : M W A) :
  (forall s, calls (snd (m s)) = calls s) -> fatal_last m.
Proof.
  intros H s res s' E. exists []. rewrite app_nil_r.
  specialize (H s). rewrite E in H. split; [exact H|intros []].
Qed.

Lemma fatal_last_bind {A B : Type} (m : M W A) (k : A -> M W B) :
  fatal_last m -> (forall a, fatal_last (k a)) -> fatal_last (bind m k).
Proof.
  intros Hm Hk s res s' E. unfold bind in E.
  destruct (m s) as [r1 s1] eqn:E1.
  destruct (Hm _ _ _ E1) as (new1 & Hcalls1 & Hfatal1).
  destruct r1 as [a|e|].
  - destruct (Hk a _ _ _ E) as (new2 & Hcalls2 & Hfatal2).
    exists (new1 ++ new2). split.
    + now rewrite Hcalls2, Hcalls1, app_assoc.
    + intros Hin. apply in_app_or in Hin as [Hin|Hin].
      * destruct (Hfatal1 Hin) as [Habsurd _]. discriminate.
      * destruct (Hfatal2 Hin) as [-> [before ->]].
        split; [reflexivity|]. exists (new1 ++ before).
        now rewrite app_assoc.
  - injection E as <- <-. exists new1. split; [assumption|].
    intros Hin. destruct (Hfatal1 Hin) as [[= ->] Hbefore].
    split; [reflexivity|exact Hbefore].
  - injection E as <- <-. exists new1. split; [assumption|].
    intros Hin. destruct (Hfatal1 Hin) as [Habsurd _]. discriminate.
Qed.

Lemma fatal_last_call {A : Type} (f : W -> A * W) (entry : A -> Call) :
  (forall a, entry a <> CondenseCall false) -> fatal_last (call f entry).
Proof.
  intros Hentry s res s' E. rewrite call_run in E. injection E as <- <-.
  eexists. split; [reflexivity|].
  intros [Hin|[]]. now apply Hentry in Hin.
Qed.

Lemma fatal_last_retry : fatal_last (_retry_with_condense ag).
Proof.
  unfold _retry_with_condense.
  apply fatal_last_bind; [now apply fatal_last_pure|]. intros st.
  destruct (memory_condenser ag) as [mc|]; [|now apply fatal_last_pure].
  intros s res s' E. unfold bind in E. rewrite call_run in E.
  destruct (condense mc (world s) (history st)) as [[sa|] w'];
    cbn [fst snd] in E; unfold get_state, set_history, raise in E;
    cbn [state world calls] in E; injection E as <- <-; cbn [calls].
  - exists [CondenseCall true]. split; [reflexivity|].
    intros [Hin|[]]. discriminate.
  - exists [CondenseCall false]. split; [reflexivity|].
    intros _. split; [reflexivity|]. now exists [].
Qed.

Lemma fatal_last_try_completion (messages : list Message) :
  fatal_last (try_completion ag messages).
Proof.
  unfold try_completion. apply fatal_last_bind.
  - apply fatal_last_call. discriminate.
  - intros [[| | |]|response]; now apply fatal_last_pure.
Qed.

Lemma fatal_last_loop (fuel : nat) :
  forall response attempt messages,
    fatal_last (completion_loop ag fuel response attempt messages).
Proof.
  induction fuel as [|fuel IH]; intros response attempt messages; simpl.
  - destruct (_ && _); now apply fatal_last_pure.
  - destruct (_ && _); [|now apply fatal_last_pure].
    apply fatal_last_bind; [apply fatal_last_try_completion|].
    intros [response'|[]]; [apply IH|].
    destruct (memory_condenser ag); [|apply IH].
    apply fatal_last_bind; [apply fatal_last_retry|]. intros _.
    apply fatal_last_bind; [now apply fatal_last_pure|]. intros ?.
    apply IH.
Qed.

Lemma fatal_last_step (fuel : nat) : fatal_last (step ag fuel).
Proof.
  unfold step.
  apply fatal_last_bind; [now apply fatal_last_pure|]. intros messages.
  apply fatal_last_bind.
  - destruct (max_input_tokens ag); [|now apply fatal_last_pure].
    destruct (memory_condenser ag); [|now apply fatal_last_pure].
    apply fatal_last_bind; [apply fatal_last_call; discriminate|].
    intros [|]; [|now apply fatal_last_pure].
    apply fatal_last_bind; [apply fatal_last_retry|]. intros _.
    now apply fatal_last_pure.
  - intros messages'.
    destruct (match latest_user_message messages' with
              | Some m => is_exit m
              | None => false
              end); [now apply fatal_last_pure|].
    apply fatal_last_bind; [apply fatal_last_loop|].
    intros [[content|] messages'']; [|now apply fatal_last_pure].
    apply fatal_last_bind;
      [now apply fatal_last_pure|intros _; now apply fatal_last_pure].
Qed.

(** With no token ceiling configured and no sentinel, the turn is
    the loop followed by the decoding. *)
Lemma step_without_ceiling (fuel : nat) (st : State) (w : W) :
  max_input_tokens ag = None ->
  match latest_user_message (_get_messages (prompt ag) st) with
  | Some m => is_exit m
  | None => false
  end = false ->
  run_step ag fuel st w
  = bind (completion_loop ag fuel None 0 (_get_messages (prompt ag) st))
         after_loop
         {| state := st; world := w; calls := [] |}.
Proof.
  intros Hnone Hexit. unfold run_step, step.
  rewrite (bind_Ok _ _ _ _ _ (render_run _)). cbn [state].
  rewrite Hnone.
  rewrite (bind_Ok (ret (_get_messages (prompt ag) st)) _ _ _ _ eq_refl).
  now rewrite Hexit.
Qed.

End Turn.

End OrchestratorFacts.

Import OrchestratorFacts.

(** C9, with the condition the code adds.  Let [m] be the most recent
    user message of the rendered history.  If [m] trimmed is [/exit],
    the renderer returns the messages with no reminder, and a turn in
    which pre-emptive overflow recovery is not triggered returns a
    finish action without a call of the completion service.  Otherwise
    the reminder with [max_iterations - iteration] is appended to [m]
    and every other message is as rendered. *)
Theorem exit_sentinel_ends_turn (W : Type) (ag : Agent W) (st : State)
        (i : nat) (m : Message) :
  latest_user_index (initial_messages (prompt ag) st) = Some i ->
  nth_error (initial_messages (prompt ag) st) i = Some m ->
  (PyStr.strip (content m) = "/exit" ->
   _get_messages (prompt ag) st = initial_messages (prompt ag) st
   /\ forall fuel w,
        preemptive_overflow ag w (_get_messages (prompt ag) st) = false ->
        fst (run_step ag fuel st w) = Ok (AgentFinishAction None)
        /\ completion_calls (snd (run_step ag fuel st w)) = 0)
  /\ (PyStr.strip (content m) <> "/exit" ->
      nth_error (_get_messages (prompt ag) st) i
      = Some {| role := user;
                content :=
                  content m ++ nl ++ nl ++ "ENVIRONMENT REMINDER: You have "
                  ++ PyStr.of_int (max_iterations st - iteration st)
                  ++ " turns left to complete the task." |}
      /\ forall j, j <> i ->
           nth_error (_get_messages (prompt ag) st) j
           = nth_error (initial_messages (prompt ag) st) j).
Proof.
  intros Hi Hm. split; intros Hexit.
  - apply PyStrFacts.eqb_eq in Hexit. fold (is_exit m) in Hexit.
    destruct (latest_user_message_exit W ag st i m Hi Hm Hexit) as [Hsame Hlatest].
    split; [exact Hsame|].
    intros fuel w Hover.
    destruct (step_exit W ag fuel st w m Hlatest Hexit Hover) as (H1 & H2 & _).
    now split.
  - apply PyStrFacts.eqb_neq in Hexit. fold (is_exit m) in Hexit.
    destruct (latest_user_index_Some _ _ Hi) as (m' & Hm' & Hrole & _).
    rewrite Hm in Hm'. injection Hm' as <-.
    unfold _get_messages. rewrite Hi, Hm, Hexit.
    destruct (append_content_nth _ i (reminder st) m Hm) as [H1 H2].
    split; [|exact H2].
    rewrite H1, Hrole. reflexivity.
Qed.

Lemma exit_sentinel_ends_turn_witness :
  _get_messages Scenario.texts Scenario.exit_state
  = initial_messages Scenario.texts Scenario.exit_state
  /\ fst (run_step Scenario.plain_agent 1 Scenario.exit_state tt)
     = Ok (AgentFinishAction None)
  /\ completion_calls (snd (run_step Scenario.plain_agent 1 Scenario.exit_state tt))
     = 0.
Proof.
  destruct (exit_sentinel_ends_turn
              unit Scenario.plain_agent Scenario.exit_state 2
              {| role := user; content := "/exit" |} eq_refl eq_refl)
    as [Hexit _].
  destruct (Hexit eq_refl) as [Hsame Hturn].
  split; [exact Hsame|]. apply (Hturn 1 tt). reflexivity.
Defined.

(** C9 as stated fails when the configured token ceiling triggers
    recovery first: the latest user message is [/exit], the condenser
    has nothing to condense, and the turn raises the context-limit error
    where a finish action was claimed. *)
Lemma exit_sentinel_under_overflow :
  latest_user_message
    (initial_messages Scenario.texts Scenario.exit_state)
  = Some {| role := user; content := "/exit" |}
  /\ PyStr.strip ("/exit" : str) = "/exit"
  /\ fst (run_step Scenario.capped_agent 3 Scenario.exit_state tt)
     = Raise fatal_error
  /\ fst (run_step Scenario.capped_agent 3 Scenario.exit_state tt)
     <> Ok (AgentFinishAction None).
Proof. repeat split; try reflexivity. vm_compute. discriminate. Qed.

(** C2: when the condenser yields no summary, [_retry_with_condense]
    raises the context-limit error; and in a turn, once a condensation
    has yielded nothing, the turn ends with that error and the failed
    condensation is the last call made: the completion service is not
    called after it. *)
Theorem fatal_recovery_ends_turn (W : Type) (ag : Agent W) :
  (forall (s : Store W) (mc : MemoryCondenser W),
     memory_condenser ag = Some mc ->
     fst (condense mc (world s) (history (state s))) = None ->
     _retry_with_condense ag s
     = (Raise fatal_error,
        {| state := state s;
           world := snd (condense mc (world s) (history (state s)));
           calls := calls s ++ [CondenseCall false] |}))
  /\ (forall (fuel : nat) (st : State) (w : W),
        In (CondenseCall false) (calls (snd (run_step ag fuel st w))) ->
        fst (run_step ag fuel st w) = Raise fatal_error
        /\ exists before,
             calls (snd (run_step ag fuel st w)) = before ++ [CondenseCall false]).
Proof.
  split.
  - intros s mc Hmc Hnone. unfold _retry_with_condense.
    rewrite (bind_Ok W get_state _ s s (state s) eq_refl), Hmc.
    unfold bind. rewrite call_run.
    destruct (condense mc (world s) (history (state s))) as [r w'].
    cbn [fst snd] in *. subst r. reflexivity.
  - intros fuel st w Hin. unfold run_step in *.
    destruct (step ag fuel {| state := st; world := w; calls := [] |})
      as [res s'] eqn:E.
    destruct (fatal_last_step W ag fuel _ _ _ E) as (new & Hcalls & Hfatal).
    cbn [fst snd calls app] in *. rewrite Hcalls in *.
    apply Hfatal. exact Hin.
Qed.

Lemma fatal_recovery_ends_turn_witness :
  fst (run_step Scenario.stuck_agent 5 Scenario.task_state tt) = Raise fatal_error
  /\ exists before,
       calls (snd (run_step Scenario.stuck_agent 5 Scenario.task_state tt))
       = before ++ [CondenseCall false].
Proof.
  apply (proj2 (fatal_recovery_ends_turn unit Scenario.stuck_agent)
               5 Scenario.task_state tt).
  vm_compute. right. left. reflexivity.
Defined.

(** The run of the witness above: one completion call, then the
    condensation that yields nothing. *)
Lemma stuck_turn_calls :
  completion_calls (snd (run_step Scenario.stuck_agent 5 Scenario.task_state tt))
  = 1.
Proof. reflexivity. Qed.

Module LoopFacts.
Import Scenario.

(** One round of the loop of the overflowing agent: a completion
    call, a condensation, and the loop again on the same messages. *)
Lemma overflowing_round (n : nat) (log : list Call) :
  completion_loop overflowing_agent (S n) None 0
                  (_get_messages texts task_state)
                  {| state := task_state; world := tt; calls := log |}
  = completion_loop overflowing_agent n None 0
                    (_get_messages texts task_state)
                    {| state := task_state; world := tt;
                       calls := (log ++ [CompletionCall
                                           (_get_messages texts task_state)])
                                ++ [CondenseCall true] |}.
Proof. reflexivity. Qed.

Lemma overflowing_loop (n : nat) (log : list Call) :
  completion_loop overflowing_agent n None 0
                  (_get_messages texts task_state)
                  {| state := task_state; world := tt; calls := log |}
  = (OutOfFuel,
     {| state := task_state; world := tt;
        calls :=
          log ++ concat (repeat [CompletionCall (_get_messages texts task_state);
                                 CondenseCall true] n) |}).
Proof.
  revert log. induction n as [|n IH]; intros log.
  - cbn [repeat concat]. rewrite app_nil_r. reflexivity.
  - rewrite overflowing_round, IH. cbn [repeat concat].
    now rewrite <- !app_assoc.
Qed.

Lemma completion_calls_rounds (n : nat) (messages : list Message) :
  length (filter is_completion
                 (concat (repeat [CompletionCall messages; CondenseCall true] n)))
  = n.
Proof. induction n as [|n IH]; simpl; [reflexivity|]. now rewrite IH. Qed.

End LoopFacts.

(** C1 on the code: the loop never assigns [attempt].  When the first
    three completion calls exceed the context window and each
    condensation yields a summary, the turn calls the completion service
    a fourth time.  When every call exceeds the window, the loop does
    not end: whatever the fuel, the run is cut off after that many
    completion calls. *)
Theorem completion_calls_exceed_three :
  (fst (run_step Scenario.shrinking_agent 10 Scenario.task_state 0)
   = Ok (MessageAction "All done." true)
   /\ completion_calls
        (snd (run_step Scenario.shrinking_agent 10 Scenario.task_state 0)) = 4)
  /\ forall n,
       fst (run_step Scenario.overflowing_agent n Scenario.task_state tt)
       = OutOfFuel
       /\ completion_calls
            (snd (run_step Scenario.overflowing_agent n Scenario.task_state tt))
          = n.
Proof.
  split; [split; vm_compute; reflexivity|].
  intros n.
  rewrite step_without_ceiling by reflexivity.
  erewrite bind_OutOfFuel by apply LoopFacts.overflowing_loop.
  cbn [fst snd]. split; [reflexivity|].
  unfold completion_calls. cbn [calls app].
  apply LoopFacts.completion_calls_rounds.
Qed.

(** * Further properties *)

(** ** Occurrences of a tag in a text *)

Module OccurrenceFacts.

Lemma startswith_length (p s : str) :
  startswith p s = true -> length p <= length s.
Proof.
  intros H. apply startswith_inv in H. rewrite H, length_app. lia.
Qed.

Lemma startswith_other_head (c x : ascii) (o t : str) :
  x <> c -> startswith (c :: o) (x :: t) = false.
Proof.
  intros H. simpl. destruct (Ascii.eqb c x) eqn:E; [|reflexivity].
  apply Ascii.eqb_eq in E. congruence.
Qed.

(** A tag does not start inside a text without its first character. *)
Lemma startswith_after (c : ascii) (o a r : str) :
  Forall (fun x => x <> c) a ->
  forall j, j < length a -> startswith (c :: o) (skipn j (a ++ r)) = false.
Proof.
  induction 1 as [|x a Hx _ IH]; intros j Hj; simpl in Hj; [lia|].
  destruct j as [|j].
  - now apply startswith_other_head.
  - apply IH. lia.
Qed.

Lemma contains_after (c : ascii) (o a r : str) :
  Forall (fun x => x <> c) a ->
  contains (c :: o) (a ++ r) = contains (c :: o) r.
Proof.
  induction 1 as [|x a Hx _ IH]; [reflexivity|].
  change ((x :: a) ++ r) with (x :: (a ++ r)).
  cbn [contains]. rewrite IH.
  now rewrite (startswith_other_head c x o (a ++ r) Hx).
Qed.

Lemma contains_none (c : ascii) (o a : str) :
  Forall (fun x => x <> c) a -> contains (c :: o) a = false.
Proof.
  intros H. rewrite <- (app_nil_r a), (contains_after c o a [] H). reflexivity.
Qed.

Lemma startswith_before_tag (c : ascii) (o a t : str) :
  Forall (fun x => x <> c) o ->
  startswith o (a ++ c :: t) = startswith o a.
Proof.
  intros Ho. revert a. induction Ho as [|y o Hy _ IH]; intros a; [reflexivity|].
  destruct a as [|z a].
  - now apply startswith_other_head.
  - simpl. now rewrite IH.
Qed.

(** Appending a text that starts with [c] to [a] creates no occurrence
    of a tag that holds [c] at its start only: an occurrence lies in
    [a] or in the appended text. *)
Lemma contains_app_tag (c : ascii) (o a t : str) :
  Forall (fun x => x <> c) o ->
  contains (c :: o) (a ++ c :: t) = contains (c :: o) a || contains (c :: o) (c :: t).
Proof.
  intros Ho. induction a as [|x a IH].
  - reflexivity.
  - change ((x :: a) ++ c :: t) with (x :: (a ++ c :: t)).
    cbn [contains]. rewrite IH.
    cbn [startswith]. rewrite (startswith_before_tag c o a t Ho).
    now rewrite orb_assoc.
Qed.

End OccurrenceFacts.

Import OccurrenceFacts.

(** ** The closing-tag repair *)

Module RepairFacts.

Lemma repair_unclosed (action lang : str) :
  repair action lang = if unclosed lang action then action ++ close_tag lang
                       else action.
Proof. reflexivity. Qed.

Lemma unclosed_repair_same (action lang : str) :
  unclosed lang (repair action lang) = false.
Proof.
  rewrite repair_unclosed. destruct (unclosed lang action) eqn:E; [|exact E].
  assert (H : contains (close_tag lang) (action ++ close_tag lang) = true).
  { apply contains_iff. exists action, []. now rewrite app_nil_r. }
  unfold unclosed. rewrite H. apply andb_false_r.
Qed.

Lemma open_in_close (lang lang' : str) :
  In lang languages -> In lang' languages ->
  contains (open_tag lang) (close_tag lang') = false.
Proof.
  unfold languages. simpl.
  intros [<-|[<-|[<-|[]]]] [<-|[<-|[<-|[]]]]; reflexivity.
Qed.

Lemma open_tag_shape (lang : str) :
  In lang languages ->
  exists o, open_tag lang = "<"%char :: o /\ Forall (fun x => x <> "<"%char) o.
Proof.
  unfold languages. simpl.
  intros [<-|[<-|[<-|[]]]]; eexists; (split; [reflexivity|]);
    repeat constructor; discriminate.
Qed.

Lemma close_tag_shape (lang : str) :
  exists t, close_tag lang = "<"%char :: t.
Proof. eexists. reflexivity. Qed.

(** The repair of one family leaves the others without a new opening
    tag. *)
Lemma unclosed_repair_other (action lang lang' : str) :
  In lang languages -> In lang' languages ->
  unclosed lang action = false ->
  unclosed lang (repair action lang') = false.
Proof.
  intros Hl Hl' H. rewrite repair_unclosed.
  destruct (unclosed lang' action); [|exact H].
  unfold unclosed in *.
  destruct (open_tag_shape lang Hl) as (o & Ho & Hfree).
  destruct (close_tag_shape lang') as (t & Ht).
  rewrite Ho, Ht, (contains_app_tag _ o action t Hfree), <- Ho, <- Ht.
  rewrite (open_in_close lang lang' Hl Hl'), orb_false_r.
  destruct (contains (open_tag lang) action); [|reflexivity].
  simpl in H. apply negb_false_iff in H.
  now rewrite (contains_app_l (close_tag lang) action (close_tag lang') H).
Qed.

(** After [parse_response] no family is left open. *)
Lemma parse_response_closed (text lang : str) :
  In lang languages -> unclosed lang (parse_response text) = false.
Proof.
  intros Hlang. rewrite parse_response_unfold.
  assert (Hb : In ("bash" : str) languages) by (left; reflexivity).
  assert (Hi : In ("ipython" : str) languages) by (right; left; reflexivity).
  assert (Hw : In ("browse" : str) languages)
    by (right; right; left; reflexivity).
  destruct Hlang as [<-|[<-|[<-|[]]]].
  - apply unclosed_repair_other; auto. apply unclosed_repair_other; auto.
    apply unclosed_repair_same.
  - apply unclosed_repair_other; auto. apply unclosed_repair_same.
  - apply unclosed_repair_same.
Qed.

End RepairFacts.

Import RepairFacts.

(** X1: [parse_response] only appends to the text, and in its result
    every tag family whose opening tag occurs has its closing tag
    too. *)
Theorem parse_response_closes (text : str) :
  (exists appended, parse_response text = text ++ appended)
  /\ forall lang, In lang languages -> unclosed lang (parse_response text) = false.
Proof.
  split.
  - rewrite parse_response_unfold.
    destruct (repair_extends text "bash") as [t1 E1].
    destruct (repair_extends (repair text "bash") "ipython") as [t2 E2].
    destruct (repair_extends (repair (repair text "bash") "ipython") "browse")
      as [t3 E3].
    exists (t1 ++ t2 ++ t3). rewrite E3, E2, E1. now rewrite <- !app_assoc.
  - intros lang Hlang. now apply parse_response_closed.
Qed.

(** X2: [parse_response] changes nothing exactly when no tag family is
    opened without being closed; in particular a second pass over its
    own result changes nothing. *)
Theorem parse_response_fixpoint (text : str) :
  (parse_response text = text <->
   forall lang, In lang languages -> unclosed lang text = false)
  /\ parse_response (parse_response text) = parse_response text.
Proof.
  assert (Hfix : forall s,
            (forall lang, In lang languages -> unclosed lang s = false) ->
            parse_response s = s).
  { intros s H. rewrite parse_response_unfold, !repair_unclosed.
    rewrite (H "bash") by (left; reflexivity).
    rewrite (H "ipython") by (right; left; reflexivity).
    now rewrite (H "browse") by (right; right; left; reflexivity). }
  split; [split|].
  - intros E lang Hlang. rewrite <- E. now apply parse_response_closed.
  - apply Hfix.
  - apply Hfix. intros lang Hlang. now apply parse_response_closed.
Qed.

(** ** Truncation *)

Module TruncationFacts.

Lemma marker_length : length truncation_marker = 47.
Proof. reflexivity. Qed.

Lemma truncated_length (observation : str) (max_chars : Z) :
  (2 <= max_chars)%Z ->
  (max_chars < Z.of_nat (length observation))%Z ->
  Z.of_nat (length (truncate_observation observation max_chars))
  = (2 * (max_chars / 2) + 47)%Z.
Proof.
  intros H2 Hlong.
  destruct (FormatterFacts.truncate_observation_long observation max_chars H2 Hlong)
    as (E & Hfirst & Hlast).
  rewrite E, !length_app, Hfirst, Hlast, marker_length.
  assert (0 <= max_chars / 2)%Z by (apply Z.div_pos; lia). lia.
Qed.

Lemma truncated_longer (observation : str) (max_chars : Z) :
  (2 <= max_chars)%Z ->
  (max_chars < Z.of_nat (length observation))%Z ->
  (max_chars < Z.of_nat (length (truncate_observation observation max_chars))
   <= max_chars + 47)%Z.
Proof.
  intros H2 Hlong. rewrite (truncated_length observation max_chars H2 Hlong).
  pose proof (Z.div_mod max_chars 2 ltac:(lia)) as Hdiv.
  pose proof (Z.mod_pos_bound max_chars 2 ltac:(lia)) as Hmod.
  lia.
Qed.

End TruncationFacts.

(** X3: above a ceiling of at least 2, the truncated text has
    [2 * (max_chars // 2) + 47] characters: it is longer than the
    ceiling, by at most the 47 characters of the marker. *)
Theorem truncate_observation_length (observation : str) (max_chars : Z) :
  (2 <= max_chars)%Z ->
  (max_chars < Z.of_nat (length observation))%Z ->
  Z.of_nat (length (truncate_observation observation max_chars))
  = (2 * (max_chars / 2) + 47)%Z
  /\ (max_chars < Z.of_nat (length (truncate_observation observation max_chars))
      <= max_chars + 47)%Z.
Proof.
  intros H2 Hlong.
  rewrite (TruncationFacts.truncated_length observation max_chars H2 Hlong).
  split; [reflexivity|].
  pose proof (Z.div_mod max_chars 2 ltac:(lia)) as Hdiv.
  pose proof (Z.mod_pos_bound max_chars 2 ltac:(lia)) as Hmod.
  lia.
Qed.

Lemma truncate_observation_length_witness :
  Z.of_nat (length (truncate_observation "abcdefgh" 5)) = (2 * (5 / 2) + 47)%Z
  /\ (5 < Z.of_nat (length (truncate_observation "abcdefgh" 5)) <= 5 + 47)%Z.
Proof.
  apply (truncate_observation_length "abcdefgh" 5); simpl; lia.
Defined.

(** X4: at a ceiling of at least 2, truncating a second time changes
    nothing, although the truncated text is longer than the ceiling. *)
Theorem truncate_observation_idempotent (observation : str) (max_chars : Z) :
  (2 <= max_chars)%Z ->
  truncate_observation (truncate_observation observation max_chars) max_chars
  = truncate_observation observation max_chars.
Proof.
  intros H2.
  destruct (Z.leb_spec (Z.of_nat (length observation)) max_chars) as [Hshort|Hlong].
  - now rewrite !(FormatterFacts.truncate_observation_short observation max_chars Hshort).
  - pose proof (TruncationFacts.truncated_longer observation max_chars H2 Hlong)
      as [Hmore _].
    destruct (FormatterFacts.truncate_observation_long observation max_chars H2 Hlong)
      as (E & Hfirst & Hlast).
    destruct (FormatterFacts.truncate_observation_long
                (truncate_observation observation max_chars) max_chars H2 Hmore)
      as (E' & _ & _).
    rewrite E'. clear E' Hmore.
    set (half := Z.to_nat (max_chars / 2)) in *.
    set (head := firstn half observation) in *.
    set (tail := skipn (length observation - half) observation) in *.
    rewrite E. clear E.
    rewrite <- Hfirst at 1. rewrite firstn_app_exact.
    do 2 f_equal.
    replace (length (head ++ truncation_marker ++ tail) - half)
      with (length (head ++ truncation_marker) + 0)
      by (rewrite !length_app, Hlast; lia).
    rewrite app_assoc, skipn_app_plus. reflexivity.
Qed.

Lemma truncate_observation_idempotent_witness :
  truncate_observation (truncate_observation "abcdefgh" 5) 5
  = truncate_observation "abcdefgh" 5.
Proof.
  apply (truncate_observation_idempotent "abcdefgh" 5). lia.
Defined.

(** ** Lines and the rendering of observations *)

Module LineFacts.

Lemma split_lines_nonempty (s : str) : split_lines s <> [].
Proof.
  induction s as [|c s IH]; simpl; [discriminate|].
  destruct (Ascii.eqb c "010"%char); [discriminate|].
  destruct (split_lines s); discriminate.
Qed.

Lemma join_lines_cons (l : str) (ls : list str) :
  ls <> [] -> join_lines (l :: ls) = l ++ nl ++ join_lines ls.
Proof. destruct ls; [congruence|reflexivity]. Qed.

(** Splitting at line feeds and joining again gives the text back. *)
Lemma join_split (s : str) : join_lines (split_lines s) = s.
Proof.
  induction s as [|c s IH]; [reflexivity|].
  cbn [split_lines]. destruct (Ascii.eqb c "010"%char) eqn:E.
  - apply Ascii.eqb_eq in E. subst c.
    rewrite join_lines_cons by apply split_lines_nonempty.
    now rewrite IH.
  - pose proof (split_lines_nonempty s) as Hne.
    destruct (split_lines s) as [|l ls]; [congruence|].
    rewrite <- IH. destruct ls; reflexivity.
Qed.

Lemma split_lines_one_line (s : str) : one_line s -> split_lines s = [s].
Proof.
  induction 1 as [|c s Hc _ IH]; [reflexivity|].
  cbn [split_lines]. rewrite IH.
  destruct (Ascii.eqb c "010"%char) eqn:E; [|reflexivity].
  apply Ascii.eqb_eq in E. congruence.
Qed.

Lemma split_lines_app (p c : str) :
  one_line p -> split_lines (p ++ nl ++ c) = p :: split_lines c.
Proof.
  induction 1 as [|x p Hx _ IH]; [reflexivity|].
  change ((x :: p) ++ nl ++ c) with (x :: (p ++ nl ++ c)).
  cbn [split_lines]. rewrite IH.
  destruct (Ascii.eqb x "010"%char) eqn:E; [|reflexivity].
  apply Ascii.eqb_eq in E. congruence.
Qed.

(** Joining lines and splitting again gives the lines back. *)
Lemma split_join (ls : list str) :
  ls <> [] -> Forall one_line ls -> split_lines (join_lines ls) = ls.
Proof.
  intros Hne H. induction H as [|l ls Hl Hls IH]; [congruence|].
  destruct ls as [|l' ls'].
  - now apply split_lines_one_line.
  - rewrite join_lines_cons by discriminate.
    rewrite split_lines_app by exact Hl.
    f_equal. apply IH. discriminate.
Qed.

Lemma first_line_prefix (s l : str) (ls : list str) :
  split_lines s = l :: ls -> exists b, s = l ++ b.
Proof.
  revert l ls. induction s as [|c s IH]; intros l ls.
  - intros [= <- <-]. now exists [].
  - cbn [split_lines]. destruct (Ascii.eqb c "010"%char).
    + intros [= <- <-]. now exists (c :: s).
    + destruct (split_lines s) as [|l0 ls0] eqn:E; intros [= <- <-].
      * now exists s.
      * destruct (IH l0 ls0 eq_refl) as [b ->]. now exists b.
Qed.

(** Every line is a piece of the text. *)
Lemma line_in_text (s l : str) :
  In l (split_lines s) -> exists a b, s = a ++ l ++ b.
Proof.
  revert l. induction s as [|c s IH]; intros l.
  - intros [<-|[]]. now exists [], [].
  - cbn [split_lines]. destruct (Ascii.eqb c "010"%char) eqn:E.
    + intros [<-|Hin].
      * now exists [], (c :: s).
      * destruct (IH l Hin) as (a & b & ->). now exists (c :: a), b.
    + pose proof (split_lines_nonempty s) as Hne.
      destruct (split_lines s) as [|l0 ls] eqn:Es; [congruence|].
      intros [<-|Hin].
      * destruct (first_line_prefix s l0 ls Es) as [b ->]. now exists [], b.
      * destruct (IH l (or_intror Hin)) as (a & b & ->). now exists (c :: a), b.
Qed.

Lemma line_without (sub s l : str) :
  contains sub s = false -> In l (split_lines s) -> contains sub l = false.
Proof.
  intros Hs Hin. destruct (contains sub l) eqn:E; [|reflexivity].
  destruct (line_in_text s l Hin) as (a & b & ->).
  rewrite (contains_app_r sub a (l ++ b)) in Hs; [discriminate|].
  now apply contains_app_l.
Qed.

(** A prefix no longer than half the ceiling survives truncation. *)
Lemma truncate_keeps_prefix (p r : str) (max_chars : Z) :
  (Z.of_nat (length p) <= max_chars / 2)%Z ->
  exists rest, truncate_observation (p ++ r) max_chars = p ++ rest.
Proof.
  intros Hp. unfold truncate_observation.
  destruct (Z.of_nat (length (p ++ r)) <=? max_chars)%Z eqn:E;
    [now exists r|].
  apply Z.leb_gt in E.
  assert (H0 : (0 <= max_chars / 2)%Z) by lia.
  assert (Hm : (0 <= max_chars)%Z).
  { destruct (Z.ltb_spec max_chars 0) as [Hneg|]; [|assumption].
    assert (max_chars / 2 < 0)%Z by (apply Z.div_lt_upper_bound; lia). lia. }
  assert (Hhalf : (max_chars / 2 <= max_chars)%Z)
    by (apply Z.div_le_upper_bound; lia).
  unfold PyStr.slice_to.
  rewrite (proj2 (Z.ltb_ge _ _)) by lia. rewrite Z.min_l by lia.
  rewrite firstn_app, firstn_all2 by lia.
  eexists. rewrite <- app_assoc. reflexivity.
Qed.

Lemma interpreter_body_header (c : str) :
  exists rest,
    truncate_observation
      (join_lines
         (map (fun line =>
                 if contains image_marker line then image_placeholder else line)
              (split_lines ("OBSERVATION:" ++ nl ++ c))))
      default_max_chars
    = "OBSERVATION:" ++ nl ++ rest.
Proof.
  rewrite split_lines_app by (repeat constructor; discriminate).
  cbn [map]. change (contains image_marker "OBSERVATION:") with false.
  cbn iota.
  rewrite join_lines_cons.
  - rewrite app_assoc.
    destruct (truncate_keeps_prefix ("OBSERVATION:" ++ nl)
                (join_lines
                   (map (fun line =>
                           if contains image_marker line
                           then image_placeholder else line)
                        (split_lines c)))
                default_max_chars) as [rest ->]; [vm_compute; discriminate|].
    exists rest. now rewrite <- app_assoc.
  - intros H. apply map_eq_nil in H. now apply split_lines_nonempty in H.
Qed.

End LineFacts.

Import LineFacts.

(** X5: an interpreter result is rendered line by line: after the
    [OBSERVATION:] line come the lines of the output, every line that
    holds an inline image replaced whole by the placeholder, the other
    lines as they are; the lines are joined again and the text is
    truncated. *)
Theorem interpreter_output_redacted (lines : list str) :
  lines <> [] ->
  Forall one_line lines ->
  get_observation_message (IPythonRunCellObservation (join_lines lines))
  = Some {| role := user;
            content :=
              truncate_observation
                (join_lines
                   (("OBSERVATION:" : str)
                    :: map (fun line =>
                              if contains image_marker line
                              then image_placeholder else line)
                           lines))
                default_max_chars |}.
Proof.
  intros Hne Hlines. cbn [get_observation_message].
  rewrite split_lines_app by (repeat constructor; discriminate).
  now rewrite split_join.
Qed.

Lemma interpreter_output_redacted_witness :
  get_observation_message
    (IPythonRunCellObservation
       (join_lines ["x = 1" : str;
                    "see ![image](data:image/png;base64,iVBORw0KGgo=) here" : str;
                    "done" : str]))
  = Some {| role := user;
            content :=
              join_lines ["OBSERVATION:" : str; "x = 1" : str;
                          image_placeholder; "done" : str] |}.
Proof.
  apply (interpreter_output_redacted
           ["x = 1" : str;
            "see ![image](data:image/png;base64,iVBORw0KGgo=) here" : str;
            "done" : str]).
  - discriminate.
  - repeat constructor; discriminate.
Defined.

(** X6: an interpreter output that holds no inline image is not
    changed by the redaction: the body is the [OBSERVATION:] line and
    the output, truncated together. *)
Theorem interpreter_output_without_image (c : str) :
  contains image_marker c = false ->
  get_observation_message (IPythonRunCellObservation c)
  = Some {| role := user;
            content :=
              truncate_observation ("OBSERVATION:" ++ nl ++ c) default_max_chars |}.
Proof.
  intros Hc. cbn [get_observation_message].
  rewrite split_lines_app by (repeat constructor; discriminate).
  cbn [map]. change (contains image_marker "OBSERVATION:") with false. cbn iota.
  rewrite (map_ext_in _ (fun line => line)).
  - rewrite map_id, join_lines_cons by apply split_lines_nonempty.
    now rewrite join_split.
  - intros line Hin. now rewrite (line_without image_marker c line Hc Hin).
Qed.

Lemma interpreter_output_without_image_witness :
  get_observation_message (IPythonRunCellObservation "4")
  = Some {| role := user; content := "OBSERVATION:" ++ nl ++ "4" |}.
Proof.
  apply (interpreter_output_without_image "4"). reflexivity.
Defined.

(** X7: the body of a command, interpreter or browser result starts
    with the [OBSERVATION:] line, whatever the length of the output. *)
Theorem observation_message_header (obs : Observation) (m : Message) :
  get_observation_message obs = Some m ->
  (forall c, obs <> SummaryObservation c) ->
  role m = user /\ exists rest, content m = "OBSERVATION:" ++ nl ++ rest.
Proof.
  intros Hm Hsummary.
  destruct obs as [c id code|c|c|c|c]; cbn [get_observation_message] in Hm.
  - injection Hm as <-. split; [reflexivity|]. eexists. reflexivity.
  - injection Hm as <-. split; [reflexivity|].
    exact (interpreter_body_header c).
  - injection Hm as <-. split; [reflexivity|]. eexists. reflexivity.
  - now specialize (Hsummary c).
  - discriminate.
Qed.

Lemma observation_message_header_witness :
  exists rest,
    option_map content
      (get_observation_message (CmdOutputObservation "a.txt" 3 0))
    = Some ("OBSERVATION:" ++ nl ++ rest).
Proof.
  destruct (observation_message_header
              (CmdOutputObservation "a.txt" 3 0)
              {| role := user;
                 content := "OBSERVATION:" ++ nl ++ "a.txt" ++ nl
                            ++ "[Command 3 finished with exit code 0]]" |}
              eq_refl ltac:(discriminate)) as [_ [rest H]].
  exists rest. simpl in H. simpl. now rewrite H.
Defined.

(** ** Rendering an action and decoding it again *)

Module RoundTripFacts.

Lemma lstrip_snoc_space (s : str) (w : ascii) :
  isspace w = true ->
  lstrip (s ++ [w]) = match lstrip s with [] => [] | _ :: _ => lstrip s ++ [w] end.
Proof.
  intros Hw. induction s as [|x s IH]; simpl.
  - now rewrite Hw.
  - destruct (isspace x); [exact IH|reflexivity].
Qed.

Lemma rstrip_snoc_space (s : str) (w : ascii) :
  isspace w = true -> rstrip (s ++ [w]) = rstrip s.
Proof.
  intros Hw. unfold rstrip. rewrite rev_app_distr. simpl. now rewrite Hw.
Qed.

Lemma strip_snoc_space (s : str) (w : ascii) :
  isspace w = true -> strip (s ++ [w]) = strip s.
Proof.
  intros Hw. unfold strip. rewrite (lstrip_snoc_space s w Hw).
  destruct (lstrip s) eqn:E; [reflexivity|].
  now rewrite rstrip_snoc_space.
Qed.

Lemma strip_cons_space (s : str) (w : ascii) :
  isspace w = true -> strip (w :: s) = strip s.
Proof. intros Hw. unfold strip. simpl. now rewrite Hw. Qed.

Lemma strip_between_lines (s : str) : strip (nl ++ s ++ nl) = strip s.
Proof.
  change (nl ++ s ++ nl) with ("010"%char :: (s ++ ["010"%char])).
  rewrite strip_cons_space by reflexivity.
  now apply strip_snoc_space.
Qed.

Lemma strip_before_line (s : str) : strip (s ++ nl) = strip s.
Proof. now apply strip_snoc_space. Qed.

(** The greedy search finds the first [open] and the last [close]. *)
Lemma search_tagged_greedy (o c a b d : str) :
  (forall j, j < length a ->
             startswith o (skipn j (a ++ o ++ b ++ c ++ d)) = false) ->
  (forall j, length b < j -> j <= length (b ++ c ++ d) ->
             startswith c (skipn j (b ++ c ++ d)) = false) ->
  search (tagged o true c) (a ++ o ++ b ++ c ++ d)
  = Some (length a, length o + length b + length c).
Proof.
  intros Ho Hc.
  destruct (search (tagged o true c) (a ++ o ++ b ++ c ++ d)) as [[i n]|] eqn:E.
  - apply search_from_Some in E as (k & -> & Hk & Hm & Hleft). simpl.
    assert (k = length a) as ->.
    { destruct (Nat.lt_trichotomy k (length a)) as [Hlt|[Heq|Hgt]]; auto.
      - rewrite match_here_tagged, (Ho k Hlt) in Hm. discriminate.
      - specialize (Hleft _ Hgt). exfalso.
        replace (length a) with (length a + 0) in Hleft by lia.
        rewrite skipn_app_plus in Hleft.
        now apply match_here_span in Hleft. }
    replace (length a) with (length a + 0) in Hm by lia.
    rewrite skipn_app_plus, skipn_O in Hm.
    rewrite match_here_tagged, startswith_app, skipn_app_exact in Hm.
    destruct (star (close_here c) true (b ++ c ++ d)) as [n1|] eqn:Hstar;
      [|discriminate].
    injection Hm as <-.
    apply star_greedy_Some in Hstar as (kb & m & -> & Hkb & Hm & Hlast).
    apply close_here_Some in Hm as [Hm ->].
    assert (kb = length b) as ->.
    { destruct (Nat.lt_trichotomy kb (length b)) as [Hlt|[Heq|Hgt]]; auto.
      - specialize (Hlast (length b) Hlt). exfalso.
        replace (length b) with (length b + 0) in Hlast at 2 by lia.
        rewrite skipn_app_plus in Hlast. simpl in Hlast.
        rewrite close_here_None, startswith_app, length_app in Hlast.
        specialize (Hlast ltac:(lia)). discriminate.
      - rewrite (Hc kb Hgt Hkb) in Hm. discriminate. }
    do 2 f_equal. lia.
  - exfalso. apply search_tagged_None in E. apply E. now exists a, b, d.
Qed.

Section Rendered.

Variables o' c' a b : str.
Hypothesis Ho' : tag_free o'.
Hypothesis Hc' : tag_free c'.
Hypothesis Ha : tag_free a.
Hypothesis Hb : tag_free b.

Let o : str := "<"%char :: o'.
Let c : str := "<"%char :: c'.

Lemma rendered_search (greedy : bool) :
  search (tagged o greedy c) (a ++ o ++ b ++ c)
  = Some (length a, length o + length b + length c).
Proof.
  rewrite <- (app_nil_r c) at 2.
  assert (Hopen : forall j, j < length a ->
            startswith o (skipn j (a ++ o ++ b ++ c ++ [])) = false)
    by (intros j Hj; now apply startswith_after).
  destruct greedy.
  - apply search_tagged_greedy; [exact Hopen|].
    intros j Hj Hlen. rewrite app_nil_r in *.
    destruct (startswith c (skipn j (b ++ c))) eqn:E; [|reflexivity].
    apply startswith_length in E.
    assert (Hc1 : length c = S (length c')) by reflexivity.
    rewrite length_skipn, length_app in E. rewrite length_app in Hlen. lia.
  - apply search_tagged_lazy; [exact Hopen|].
    intros j Hj. now apply startswith_after.
Qed.

Lemma rendered_contains (f' : str) :
  contains ("<"%char :: f') (a ++ o ++ b ++ c)
  = startswith ("<"%char :: f') (o ++ b ++ c) || startswith ("<"%char :: f') c.
Proof.
  rewrite (contains_after _ f' a _ Ha).
  unfold o at 1. change (("<"%char :: o') ++ b ++ c) with ("<"%char :: (o' ++ b ++ c)).
  cbn [contains]. fold o. change ("<"%char :: o' ++ b ++ c) with (o ++ b ++ c).
  f_equal.
  rewrite app_assoc, (contains_after _ f' (o' ++ b) c).
  - unfold c at 1. cbn [contains]. fold c.
    now rewrite (contains_none _ f' c' Hc'), orb_false_r.
  - apply Forall_app. split; assumption.
Qed.

Lemma rendered_search_other (f' g : str) (greedy : bool) :
  startswith ("<"%char :: f') (o ++ b ++ c) = false ->
  startswith ("<"%char :: f') c = false ->
  search (tagged ("<"%char :: f') greedy g) (a ++ o ++ b ++ c) = None.
Proof.
  intros H1 H2. apply search_tagged_None. intros (x & y & z & E).
  assert (H : contains ("<"%char :: f') (a ++ o ++ b ++ c) = true).
  { apply contains_iff. exists x, (y ++ g ++ z). exact E. }
  rewrite rendered_contains, H1, H2 in H. discriminate.
Qed.

Lemma rendered_group1 :
  group1 o c (a ++ o ++ b ++ c) (length a, length o + length b + length c) = b.
Proof.
  rewrite <- (app_nil_r c) at 2. apply group1_span.
Qed.

Lemma rendered_thought :
  thought_of (a ++ o ++ b ++ c) (length a, length o + length b + length c)
  = strip a.
Proof.
  unfold thought_of.
  replace (a ++ o ++ b ++ c) with (a ++ (o ++ b ++ c) ++ [])
    by (now rewrite app_nil_r).
  replace (length o + length b + length c) with (length (o ++ b ++ c))
    by (rewrite !length_app; lia).
  rewrite group0_span, replace_single; [now rewrite app_nil_r|discriminate| |].
  - intros j Hj. apply startswith_app_false. now apply startswith_after.
  - reflexivity.
Qed.

End Rendered.

Lemma tag_free_line (s : str) : tag_free s -> tag_free (s ++ nl).
Proof.
  intros H. apply Forall_app. split; [exact H|].
  repeat constructor. discriminate.
Qed.

Lemma tag_free_between_lines (s : str) : tag_free s -> tag_free (nl ++ s ++ nl).
Proof.
  intros H. apply Forall_app. split; [repeat constructor; discriminate|].
  now apply tag_free_line.
Qed.

Lemma parse_response_same (s : str) :
  (forall lang, In lang languages -> unclosed lang s = false) ->
  parse_response s = s.
Proof.
  intros H. rewrite parse_response_unfold, !repair_unclosed.
  rewrite (H "bash") by (left; reflexivity).
  rewrite (H "ipython") by (right; left; reflexivity).
  now rewrite (H "browse") by (right; right; left; reflexivity).
Qed.

End RoundTripFacts.

Module DecodeFacts.
Import RoundTripFacts.

Lemma decode_bash_found (s : str) (m : nat * nat) :
  search finish_re s = None ->
  search bash_re s = Some m ->
  decode s =
  if eqb (strip (strip (group1 "<execute_bash>" "</execute_bash>" s m))) "exit"
  then AgentFinishAction None
  else CmdRunAction (strip (group1 "<execute_bash>" "</execute_bash>" s m))
                    (thought_of s m).
Proof. intros H1 H2. unfold decode. now rewrite H1, H2. Qed.

Lemma decode_ipython_found (s : str) (m : nat * nat) :
  search finish_re s = None ->
  search bash_re s = None ->
  search ipython_re s = Some m ->
  decode s =
  IPythonRunCellAction
    (strip (group1 "<execute_ipython>" "</execute_ipython>" s m))
    (thought_of s m) jupyter_kernel_init_code.
Proof. intros H1 H2 H3. unfold decode. now rewrite H1, H2, H3. Qed.

Lemma decode_browse_found (s : str) (m : nat * nat) :
  search finish_re s = None ->
  search bash_re s = None ->
  search ipython_re s = None ->
  search browse_re s = Some m ->
  decode s =
  BrowseInteractiveAction
    (strip (group1 "<execute_browse>" "</execute_browse>" s m))
    (thought_of s m).
Proof. intros H1 H2 H3 H4. unfold decode. now rewrite H1, H2, H3, H4. Qed.

Lemma decode_nothing_found (s : str) :
  search finish_re s = None ->
  search bash_re s = None ->
  search ipython_re s = None ->
  search browse_re s = None ->
  decode s = MessageAction s true.
Proof. intros H1 H2 H3 H4. unfold decode. now rewrite H1, H2, H3, H4. Qed.

(** A text without [<] holds no tag and is left alone by the repair. *)
Lemma tag_free_search (s f' g : str) (greedy : bool) :
  tag_free s -> search (tagged ("<"%char :: f') greedy g) s = None.
Proof.
  intros H. apply search_tagged_None. intros (x & y & z & E).
  assert (Hc : contains ("<"%char :: f') s = true).
  { apply contains_iff. exists x, (y ++ g ++ z). exact E. }
  rewrite (contains_none _ f' s H) in Hc. discriminate.
Qed.

Lemma tag_free_parse_response (s : str) : tag_free s -> parse_response s = s.
Proof.
  intros H. apply parse_response_same. intros lang Hlang.
  destruct (open_tag_shape lang Hlang) as (o & Ho & _).
  unfold unclosed. now rewrite Ho, (contains_none _ o s H).
Qed.

Ltac tag_free_literal := repeat constructor; discriminate.

(** The family whose closing tag ends the text is closed. *)
Lemma unclosed_ending (lang x : str) : unclosed lang (x ++ close_tag lang) = false.
Proof.
  unfold unclosed.
  replace (contains (close_tag lang) (x ++ close_tag lang)) with true;
    [apply andb_false_r|].
  symmetry. apply contains_iff. exists x, []. now rewrite app_nil_r.
Qed.

Lemma unclosed_absent (lang s : str) :
  contains (open_tag lang) s = false -> unclosed lang s = false.
Proof. intros H. unfold unclosed. now rewrite H. Qed.

End DecodeFacts.

Import RoundTripFacts DecodeFacts.

(** X8: a run-command action whose thought and command hold no [<],
    rendered by [action_to_str] and decoded again, gives a run-command
    action with the command and the thought trimmed; a command that is
    [exit] once trimmed comes back as a finish action. *)
Theorem render_decode_bash (command thought : str) :
  tag_free thought -> tag_free command ->
  decode (parse_response (action_to_str (CmdRunAction command thought)))
  = if eqb (strip command) "exit"
    then AgentFinishAction None
    else CmdRunAction (strip command) (strip thought).
Proof.
  intros Hthought Hcommand.
  pose proof (tag_free_line thought Hthought) as Ha.
  pose proof (tag_free_between_lines command Hcommand) as Hb.
  set (a := thought ++ nl) in *. set (b := nl ++ command ++ nl) in *.
  assert (Ho : tag_free "execute_bash>") by tag_free_literal.
  assert (Hc : tag_free "/execute_bash>") by tag_free_literal.
  assert (Hs : action_to_str (CmdRunAction command thought)
               = a ++ "<execute_bash>" ++ b ++ "</execute_bash>").
  { unfold a, b. cbn [action_to_str]. now rewrite <- !app_assoc. }
  rewrite Hs. clear Hs.
  set (s := a ++ "<execute_bash>" ++ b ++ "</execute_bash>").
  assert (Hsame : parse_response s = s).
  { apply parse_response_same. intros lang [<-|[<-|[<-|[]]]].
    - unfold s. rewrite !app_assoc. apply unclosed_ending.
    - apply unclosed_absent.
      etransitivity;
        [apply (rendered_contains "execute_bash>" "/execute_bash>" a b
                  Ho Hc Ha Hb "execute_ipython>")|reflexivity].
    - apply unclosed_absent.
      etransitivity;
        [apply (rendered_contains "execute_bash>" "/execute_bash>" a b
                  Ho Hc Ha Hb "execute_browse>")|reflexivity]. }
  rewrite Hsame.
  assert (Hfinish : search finish_re s = None).
  { apply (rendered_search_other "execute_bash>" "/execute_bash>" a b
             Ho Hc Ha Hb "finish>"); reflexivity. }
  pose proof (rendered_search "execute_bash>" "/execute_bash>" a b Ha Hb false)
    as Hbash.
  rewrite (decode_bash_found s _ Hfinish Hbash).
  replace (group1 "<execute_bash>" "</execute_bash>" s _) with b
    by (symmetry; apply (rendered_group1 "execute_bash>" "/execute_bash>" a b)).
  replace (thought_of s _) with (strip a)
    by (symmetry;
        apply (rendered_thought "execute_bash>" "/execute_bash>" a b Ha)).
  unfold a, b. now rewrite strip_idem, strip_between_lines, strip_before_line.
Qed.

Lemma render_decode_bash_witness :
  decode (parse_response
            (action_to_str (CmdRunAction "ls -la" "I will list files.")))
  = CmdRunAction "ls -la" "I will list files."
  /\ decode (parse_response (action_to_str (CmdRunAction " exit" "Bye.")))
     = AgentFinishAction None.
Proof.
  split.
  - apply (render_decode_bash "ls -la" "I will list files.");
      repeat constructor; discriminate.
  - apply (render_decode_bash " exit" "Bye."); repeat constructor; discriminate.
Defined.

(** X9: an interpreter-cell action whose thought and code hold no
    [<], rendered and decoded again, gives an interpreter-cell action
    with the code and the thought trimmed and the fixed kernel
    initialisation; the kernel initialisation of the rendered action
    plays no part. *)
Theorem render_decode_ipython (code thought kernel_init_code : str) :
  tag_free thought -> tag_free code ->
  decode (parse_response
            (action_to_str (IPythonRunCellAction code thought kernel_init_code)))
  = IPythonRunCellAction (strip code) (strip thought) jupyter_kernel_init_code.
Proof.
  intros Hthought Hcode.
  pose proof (tag_free_line thought Hthought) as Ha.
  pose proof (tag_free_between_lines code Hcode) as Hb.
  set (a := thought ++ nl) in *. set (b := nl ++ code ++ nl) in *.
  assert (Ho : tag_free "execute_ipython>") by tag_free_literal.
  assert (Hc : tag_free "/execute_ipython>") by tag_free_literal.
  assert (Hs : action_to_str (IPythonRunCellAction code thought kernel_init_code)
               = a ++ "<execute_ipython>" ++ b ++ "</execute_ipython>").
  { unfold a, b. cbn [action_to_str]. now rewrite <- !app_assoc. }
  rewrite Hs. clear Hs.
  set (s := a ++ "<execute_ipython>" ++ b ++ "</execute_ipython>").
  assert (Hsame : parse_response s = s).
  { apply parse_response_same. intros lang [<-|[<-|[<-|[]]]].
    - apply unclosed_absent.
      etransitivity;
        [apply (rendered_contains "execute_ipython>" "/execute_ipython>" a b
                  Ho Hc Ha Hb "execute_bash>")|reflexivity].
    - unfold s. rewrite !app_assoc. apply unclosed_ending.
    - apply unclosed_absent.
      etransitivity;
        [apply (rendered_contains "execute_ipython>" "/execute_ipython>" a b
                  Ho Hc Ha Hb "execute_browse>")|reflexivity]. }
  rewrite Hsame.
  assert (Hfinish : search finish_re s = None).
  { apply (rendered_search_other "execute_ipython>" "/execute_ipython>" a b
             Ho Hc Ha Hb "finish>"); reflexivity. }
  assert (Hbash : search bash_re s = None).
  { apply (rendered_search_other "execute_ipython>" "/execute_ipython>" a b
             Ho Hc Ha Hb "execute_bash>"); reflexivity. }
  pose proof (rendered_search "execute_ipython>" "/execute_ipython>" a b
                Ha Hb false) as Hipython.
  rewrite (decode_ipython_found s _ Hfinish Hbash Hipython).
  replace (group1 "<execute_ipython>" "</execute_ipython>" s _) with b
    by (symmetry;
        apply (rendered_group1 "execute_ipython>" "/execute_ipython>" a b)).
  replace (thought_of s _) with (strip a)
    by (symmetry;
        apply (rendered_thought "execute_ipython>" "/execute_ipython>" a b Ha)).
  unfold a, b. now rewrite strip_between_lines, strip_before_line.
Qed.

Lemma render_decode_ipython_witness :
  decode (parse_response
            (action_to_str (IPythonRunCellAction "print(1)" "Let me check."
                                                 "import os")))
  = IPythonRunCellAction "print(1)" "Let me check." jupyter_kernel_init_code.
Proof.
  apply (render_decode_ipython "print(1)" "Let me check." "import os");
    repeat constructor; discriminate.
Defined.

(** X10: a browse action whose thought and directive hold no [<],
    rendered and decoded again, gives a browse action with the
    directive and the thought trimmed. *)
Theorem render_decode_browse (browser_actions thought : str) :
  tag_free thought -> tag_free browser_actions ->
  decode (parse_response
            (action_to_str (BrowseInteractiveAction browser_actions thought)))
  = BrowseInteractiveAction (strip browser_actions) (strip thought).
Proof.
  intros Hthought Hactions.
  pose proof (tag_free_line thought Hthought) as Ha.
  pose proof (tag_free_between_lines browser_actions Hactions) as Hb.
  set (a := thought ++ nl) in *. set (b := nl ++ browser_actions ++ nl) in *.
  assert (Ho : tag_free "execute_browse>") by tag_free_literal.
  assert (Hc : tag_free "/execute_browse>") by tag_free_literal.
  assert (Hs : action_to_str (BrowseInteractiveAction browser_actions thought)
               = a ++ "<execute_browse>" ++ b ++ "</execute_browse>").
  { unfold a, b. cbn [action_to_str]. now rewrite <- !app_assoc. }
  rewrite Hs. clear Hs.
  set (s := a ++ "<execute_browse>" ++ b ++ "</execute_browse>").
  assert (Hsame : parse_response s = s).
  { apply parse_response_same. intros lang [<-|[<-|[<-|[]]]].
    - apply unclosed_absent.
      etransitivity;
        [apply (rendered_contains "execute_browse>" "/execute_browse>" a b
                  Ho Hc Ha Hb "execute_bash>")|reflexivity].
    - apply unclosed_absent.
      etransitivity;
        [apply (rendered_contains "execute_browse>" "/execute_browse>" a b
                  Ho Hc Ha Hb "execute_ipython>")|reflexivity].
    - unfold s. rewrite !app_assoc. apply unclosed_ending. }
  rewrite Hsame.
  assert (Hfinish : search finish_re s = None).
  { apply (rendered_search_other "execute_browse>" "/execute_browse>" a b
             Ho Hc Ha Hb "finish>"); reflexivity. }
  assert (Hbash : search bash_re s = None).
  { apply (rendered_search_other "execute_browse>" "/execute_browse>" a b
             Ho Hc Ha Hb "execute_bash>"); reflexivity. }
  assert (Hipython : search ipython_re s = None).
  { apply (rendered_search_other "execute_browse>" "/execute_browse>" a b
             Ho Hc Ha Hb "execute_ipython>"); reflexivity. }
  pose proof (rendered_search "execute_browse>" "/execute_browse>" a b
                Ha Hb true) as Hbrowse.
  rewrite (decode_browse_found s _ Hfinish Hbash Hipython Hbrowse).
  replace (group1 "<execute_browse>" "</execute_browse>" s _) with b
    by (symmetry;
        apply (rendered_group1 "execute_browse>" "/execute_browse>" a b)).
  replace (thought_of s _) with (strip a)
    by (symmetry;
        apply (rendered_thought "execute_browse>" "/execute_browse>" a b Ha)).
  unfold a, b. now rewrite strip_between_lines, strip_before_line.
Qed.

Lemma render_decode_browse_witness :
  decode (parse_response
            (action_to_str (BrowseInteractiveAction "goto('http://localhost')"
                                                    "Open the page.")))
  = BrowseInteractiveAction "goto('http://localhost')" "Open the page.".
Proof.
  apply (render_decode_browse "goto('http://localhost')" "Open the page.");
    repeat constructor; discriminate.
Defined.

(** X11: a response without any [<] is left alone by the repair and
    decoded to a send-message action that holds it unchanged, not
    trimmed, and waits for a reply. *)
Theorem decode_tag_free_text (text : str) :
  tag_free text ->
  parse_response text = text
  /\ decode (parse_response text) = MessageAction text true.
Proof.
  intros H. rewrite (tag_free_parse_response text H). split; [reflexivity|].
  apply decode_nothing_found; now apply tag_free_search.
Qed.

Lemma decode_tag_free_text_witness :
  decode (parse_response "  Which branch?  ") = MessageAction "  Which branch?  " true.
Proof.
  apply (decode_tag_free_text "  Which branch?  ").
  repeat constructor; discriminate.
Defined.

(** ** What the decoder never returns *)

Module TrimFacts.

Lemma lstrip_suffix (s : str) : exists x, s = x ++ lstrip s.
Proof.
  induction s as [|c s [x IH]]; [now exists []|].
  simpl. destruct (isspace c).
  - exists (c :: x). simpl. now f_equal.
  - now exists [].
Qed.

Lemma rstrip_prefix (s : str) : exists y, s = rstrip s ++ y.
Proof.
  destruct (lstrip_suffix (rev s)) as [x E]. exists (rev x). unfold rstrip.
  rewrite <- rev_app_distr, <- E. now rewrite rev_involutive.
Qed.

(** Trimming cuts a piece out of the text. *)
Lemma strip_piece (s : str) : exists x y, s = x ++ strip s ++ y.
Proof.
  destruct (lstrip_suffix s) as [x E].
  destruct (rstrip_prefix (lstrip s)) as [y E'].
  exists x, y. unfold strip. now rewrite <- E', <- E.
Qed.

Lemma contains_strip (sub s : str) :
  contains sub s = false -> contains sub (strip s) = false.
Proof.
  intros H. destruct (contains sub (strip s)) eqn:E; [|reflexivity].
  destruct (strip_piece s) as (x & y & Hs).
  rewrite Hs, (contains_app_r sub x (strip s ++ y)) in H; [discriminate|].
  now apply contains_app_l.
Qed.

(** The text a lazy match captures holds no closing tag. *)
Lemma lazy_capture_free (o c s : str) (m : nat * nat) :
  c <> [] ->
  search (tagged o false c) s = Some m ->
  contains c (group1 o c s m) = false.
Proof.
  intros Hc H. destruct m as [i n].
  apply search_tagged_Some in H as (a & b & d & -> & -> & -> & _ & Hfirst).
  rewrite group1_span.
  destruct (contains c b) eqn:E; [|reflexivity]. exfalso.
  apply contains_iff in E as (x & y & ->).
  specialize (Hfirst (length x + 0)).
  rewrite <- !app_assoc, skipn_app_plus in Hfirst. simpl in Hfirst.
  rewrite startswith_app, !length_app in Hfirst.
  assert (length c <> 0) by (destruct c; simpl; congruence).
  specialize (Hfirst ltac:(lia)). discriminate.
Qed.

End TrimFacts.

Import TrimFacts.

(** X12: whatever the response, a decoded run-command action carries
    a trimmed command that is not [exit] and holds no
    [</execute_bash>], and a decoded interpreter-cell action carries
    trimmed code that holds no [</execute_ipython>]; the thought is
    trimmed too. *)
Theorem decoded_payload_clean (s : str) :
  (forall command thought,
     decode s = CmdRunAction command thought ->
     strip command = command /\ command <> "exit"
     /\ contains "</execute_bash>" command = false
     /\ strip thought = thought)
  /\ (forall code thought kernel_init_code,
        decode s = IPythonRunCellAction code thought kernel_init_code ->
        strip code = code
        /\ contains "</execute_ipython>" code = false
        /\ strip thought = thought
        /\ kernel_init_code = jupyter_kernel_init_code).
Proof.
  unfold decode. split.
  - intros command thought H.
    destruct (search finish_re s); [discriminate|].
    destruct (search bash_re s) as [m|] eqn:E.
    + destruct (eqb (strip (strip (group1 "<execute_bash>" "</execute_bash>" s m)))
                    "exit") eqn:Eexit; [discriminate|].
      injection H as <- <-. rewrite strip_idem in Eexit. apply eqb_neq in Eexit.
      repeat split.
      * apply strip_idem.
      * exact Eexit.
      * apply contains_strip.
        apply (lazy_capture_free "<execute_bash>" "</execute_bash>" s m);
          [discriminate|exact E].
      * apply strip_idem.
    + destruct (search ipython_re s); [discriminate|].
      destruct (search browse_re s); discriminate.
  - intros code thought kernel_init_code H.
    destruct (search finish_re s); [discriminate|].
    destruct (search bash_re s) as [m|].
    { destruct (eqb _ _); discriminate. }
    destruct (search ipython_re s) as [m|] eqn:E.
    + injection H as <- <- <-. repeat split.
      * apply strip_idem.
      * apply contains_strip.
        apply (lazy_capture_free "<execute_ipython>" "</execute_ipython>" s m);
          [discriminate|exact E].
      * apply strip_idem.
    + destruct (search browse_re s); discriminate.
Qed.

Lemma decoded_payload_clean_witness :
  strip ("ls -la" : str) = "ls -la" /\ ("ls -la" : str) <> "exit"
  /\ contains "</execute_bash>" "ls -la" = false
  /\ strip ("go" : str) = "go".
Proof.
  apply (proj1 (decoded_payload_clean
                  "go <execute_bash> ls -la </execute_bash>") "ls -la" "go").
  reflexivity.
Defined.

(** ** The rendered messages *)

Module ReminderFacts.

Lemma append_content_map_role (ms : list Message) (i : nat) (extra : str) :
  map role (append_content ms i extra) = map role ms.
Proof.
  revert i; induction ms as [|m ms IH]; intros [|i]; simpl; auto.
  now rewrite IH.
Qed.

Lemma latest_user_index_roles (ms ms' : list Message) :
  map role ms = map role ms' -> latest_user_index ms = latest_user_index ms'.
Proof.
  revert ms'. induction ms as [|m ms IH]; intros [|m' ms'] H; simpl in *;
    try discriminate; [reflexivity|].
  injection H as Hr Hrest. now rewrite (IH ms' Hrest), Hr.
Qed.

Lemma append_content_changes (ms : list Message) (i : nat) (extra : str) :
  Forall2 (fun m m' =>
             role m' = role m
             /\ (content m' = content m \/ content m' = content m ++ extra))
          ms (append_content ms i extra).
Proof.
  revert i; induction ms as [|m ms IH]; intros i; simpl; [constructor|].
  destruct i.
  - constructor; [split; [reflexivity|now right]|].
    clear. induction ms; constructor; auto.
  - constructor; [split; [reflexivity|now left]|apply IH].
Qed.

Lemma same_messages (ms : list Message) (extra : str) :
  Forall2 (fun m m' =>
             role m' = role m
             /\ (content m' = content m \/ content m' = content m ++ extra))
          ms ms.
Proof. induction ms; constructor; auto. Qed.

Lemma event_messages_length (events : list Event) :
  length (event_messages events) <= length events.
Proof.
  induction events as [|e events IH]; simpl; [lia|].
  destruct (event_message e); simpl; lia.
Qed.

Lemma strip_last (u : str) (c : ascii) :
  isspace c = false -> exists v, strip (u ++ [c]) = v ++ [c].
Proof.
  intros Hc. unfold strip.
  destruct (lstrip_snoc u c Hc) as [v ->].
  exists v. unfold rstrip. rewrite rev_app_distr. simpl. rewrite Hc.
  simpl. now rewrite rev_involutive.
Qed.

Lemma reminder_last (st : State) : exists u, reminder st = u ++ ["."%char].
Proof.
  unfold reminder.
  change (list_ascii_of_string " turns left to complete the task.")
    with (list_ascii_of_string " turns left to complete the task" ++ ["."%char]).
  eexists. rewrite !app_assoc. reflexivity.
Qed.

(** A message that ends with the reminder is not the exit sentinel. *)
Lemma reminded_is_not_exit (r : Role) (c : str) (st : State) :
  is_exit {| role := r; content := c ++ reminder st |} = false.
Proof.
  unfold is_exit. cbn [content].
  destruct (reminder_last st) as [u ->]. rewrite app_assoc.
  destruct (strip_last (c ++ u) "."%char eq_refl) as [v ->].
  apply eqb_neq. intros H.
  apply (f_equal (@rev ascii)) in H. rewrite rev_app_distr in H.
  simpl in H. discriminate.
Qed.

End ReminderFacts.

Import ReminderFacts.

(** X13: the messages [_get_messages] returns are the rendered system
    message, worked example and events, one for one and with the same
    roles; the only change is the reminder appended to a content.
    There are two messages more than rendered events, and at most two
    more than events in the history. *)
Theorem get_messages_only_reminds (p : Prompt) (st : State) :
  Forall2 (fun m m' =>
             role m' = role m
             /\ (content m' = content m
                 \/ content m' = content m ++ reminder st))
          (initial_messages p st) (_get_messages p st)
  /\ length (_get_messages p st) = 2 + length (event_messages (history st))
  /\ length (_get_messages p st) <= 2 + length (history st).
Proof.
  assert (H : Forall2 (fun m m' =>
                         role m' = role m
                         /\ (content m' = content m
                             \/ content m' = content m ++ reminder st))
                      (initial_messages p st) (_get_messages p st)).
  { destruct (get_messages_cases p st) as (i & m & _ & _ & _ & _ & ->).
    destruct (is_exit m).
    - apply same_messages.
    - apply append_content_changes. }
  split; [exact H|].
  apply Forall2_length in H. rewrite <- H.
  unfold initial_messages. rewrite length_app. simpl.
  pose proof (event_messages_length (history st)). lia.
Qed.

(** X14: the exit test of [step], made on the messages after the
    reminder was appended, agrees with the test of [_get_messages],
    made before: appending the reminder never produces the sentinel and
    never hides it. *)
Theorem exit_test_agrees (p : Prompt) (st : State) :
  ends_with_exit (_get_messages p st) = ends_with_exit (initial_messages p st).
Proof.
  destruct (get_messages_cases p st) as (i & m & Hi & Hm & Hrole & _ & E).
  unfold ends_with_exit, latest_user_message. rewrite E, Hi, Hm.
  destruct (is_exit m) eqn:Hexit.
  - now rewrite Hi, Hm.
  - rewrite (latest_user_index_roles _ _
               (append_content_map_role (initial_messages p st) i (reminder st))).
    rewrite Hi.
    destruct (append_content_nth _ i (reminder st) m Hm) as [-> _].
    apply reminded_is_not_exit.
Qed.

(** ** Runs of a turn *)

Module TurnFacts.

Section Runs.
Variable W : Type.
Variable ag : Agent W.

Lemma try_completion_run (messages : list Message) (s : Store W) :
  try_completion ag messages s
  = (match fst (llm_completion ag (world s) messages) with
     | inr response => Ok (inl response)
     | inl ContextWindowExceededError => Ok (inr tt)
     | inl e => Raise e
     end,
     {| state := state s;
        world := snd (llm_completion ag (world s) messages);
        calls := calls s ++ [CompletionCall messages] |}).
Proof.
  unfold try_completion, bind. rewrite call_run.
  destruct (llm_completion ag (world s) messages) as [[e|response] w'];
    [destruct e|]; reflexivity.
Qed.

Lemma retry_run_summary (mc : MemoryCondenser W) (s : Store W) (sa : Action)
      (w' : W) :
  memory_condenser ag = Some mc ->
  condense mc (world s) (history (state s)) = (Some sa, w') ->
  _retry_with_condense ag s
  = (Ok tt,
     {| state := with_history (state s)
                   (replace_events_with_summary ag (history (state s)) sa);
        world := w';
        calls := calls s ++ [CondenseCall true] |}).
Proof.
  intros Hmc Hcondense. unfold _retry_with_condense.
  rewrite (bind_Ok W get_state _ s s (state s) eq_refl), Hmc.
  unfold bind. rewrite call_run, Hcondense. reflexivity.
Qed.

Lemma after_loop_run (content : str) (messages : list Message) (s : Store W) :
  after_loop (Some content, messages) s
  = (Ok (decode (parse_response content)),
     {| state :=
          with_more_chars (state s)
            (sum_content_lengths messages
             + Z.of_nat (length (parse_response content)));
        world := world s;
        calls := calls s |}).
Proof. reflexivity. Qed.

Lemma sum_content_lengths_nonneg (messages : list Message) :
  (0 <= sum_content_lengths messages)%Z.
Proof. induction messages as [|m ms IH]; simpl; lia. Qed.

(** *** Relations kept by every step of a turn *)

Section Keeps.
Variable R : Store W -> Store W -> Prop.
Hypothesis R_refl : forall s, R s s.
Hypothesis R_trans : forall s1 s2 s3, R s1 s2 -> R s2 s3 -> R s1 s3.

Lemma keeps_pure {A : Type} (m : M W A) :
  (forall s, snd (m s) = s) -> keeps R m.
Proof.
  intros H s res s' E. specialize (H s). rewrite E in H. simpl in H.
  subst s'. apply R_refl.
Qed.

Lemma keeps_bind {A B : Type} (m : M W A) (k : A -> M W B) :
  keeps R m -> (forall a, keeps R (k a)) -> keeps R (bind m k).
Proof.
  intros Hm Hk s res s' E. unfold bind in E.
  destruct (m s) as [r1 s1] eqn:E1. pose proof (Hm _ _ _ E1) as H1.
  destruct r1 as [a|e|].
  - eapply R_trans; [exact H1|]. eapply Hk. exact E.
  - now injection E as <- <-.
  - now injection E as <- <-.
Qed.

Hypothesis R_completion :
  forall messages, keeps R (try_completion ag messages).
Hypothesis R_retry : keeps R (_retry_with_condense ag).
Hypothesis R_token :
  forall limit mc messages,
    max_input_tokens ag = Some limit -> memory_condenser ag = Some mc ->
    keeps R (call (fun w => is_over_token_limit mc w messages)
                  (fun _ => TokenLimitCall)).
Hypothesis R_chars : forall n, (0 <= n)%Z -> keeps R (add_num_of_chars n).

Lemma keeps_loop (fuel : nat) :
  forall response attempt messages,
    keeps R (completion_loop ag fuel response attempt messages).
Proof.
  induction fuel as [|fuel IH]; intros response attempt messages; simpl.
  - destruct (_ && _); now apply keeps_pure.
  - destruct (_ && _); [|now apply keeps_pure].
    apply keeps_bind; [apply R_completion|].
    intros [response'|[]]; [apply IH|].
    destruct (memory_condenser ag); [|apply IH].
    apply keeps_bind; [apply R_retry|]. intros _.
    apply keeps_bind; [now apply keeps_pure|]. intros ?. apply IH.
Qed.

Lemma keeps_step (fuel : nat) : keeps R (step ag fuel).
Proof.
  unfold step.
  apply keeps_bind; [now apply keeps_pure|]. intros messages.
  apply keeps_bind.
  - destruct (max_input_tokens ag) as [limit|] eqn:El;
      [|now apply keeps_pure].
    destruct (memory_condenser ag) as [mc|] eqn:Em; [|now apply keeps_pure].
    apply keeps_bind; [now apply (R_token limit mc)|].
    intros [|]; [|now apply keeps_pure].
    apply keeps_bind; [apply R_retry|]. intros _. now apply keeps_pure.
  - intros messages'.
    destruct (match latest_user_message messages' with
              | Some m => is_exit m
              | None => false
              end); [now apply keeps_pure|].
    apply keeps_bind; [apply keeps_loop|].
    intros [[content|] messages'']; [|now apply keeps_pure].
    apply keeps_bind; [|intros _; now apply keeps_pure].
    apply R_chars. pose proof (sum_content_lengths_nonneg messages''). lia.
Qed.

End Keeps.

Lemma turn_effect_refl (s : Store W) : turn_effect s s.
Proof.
  exists []. rewrite app_nil_r. repeat split; auto; lia.
Qed.

Lemma turn_effect_trans (s1 s2 s3 : Store W) :
  turn_effect s1 s2 -> turn_effect s2 s3 -> turn_effect s1 s3.
Proof.
  intros (n1 & C1 & I1 & M1 & N1 & H1) (n2 & C2 & I2 & M2 & N2 & H2).
  exists (n1 ++ n2). rewrite C2, C1, app_assoc.
  repeat split; try congruence; try lia.
  destruct H2 as [H2|H2]; [|right; apply in_or_app; now right].
  destruct H1 as [H1|H1]; [left; congruence|].
  right. apply in_or_app. now left.
Qed.

Lemma turn_effect_step (fuel : nat) : keeps turn_effect (step ag fuel).
Proof.
  apply keeps_step.
  - apply turn_effect_refl.
  - apply turn_effect_trans.
  - intros messages s res s' E. rewrite try_completion_run in E.
    injection E as _ <-. eexists. cbn [calls state].
    repeat split; auto; lia.
  - intros s res s' E. unfold _retry_with_condense in E.
    rewrite (bind_Ok W get_state _ s s (state s) eq_refl) in E.
    destruct (memory_condenser ag) as [mc|].
    + unfold bind in E. rewrite call_run in E.
      destruct (condense mc (world s) (history (state s))) as [[sa|] w'];
        cbn [fst snd] in E; unfold get_state, set_history, raise in E;
        cbn [state world calls] in E; injection E as _ <-;
        eexists; cbn [calls state iteration max_iterations num_of_chars history];
        repeat split; auto; try lia.
      right. now left.
    + injection E as _ <-. apply turn_effect_refl.
  - intros limit mc messages _ _ s res s' E. rewrite call_run in E.
    injection E as _ <-. eexists. cbn [calls state].
    repeat split; auto; lia.
  - intros n Hn s res s' E. unfold add_num_of_chars in E. injection E as _ <-.
    exists []. cbn [calls state iteration max_iterations num_of_chars history].
    rewrite app_nil_r. repeat split; auto. lia.
Qed.

Lemma logs_only_refl (P : Call -> Prop) (s : Store W) : logs_only P s s.
Proof. exists []. now rewrite app_nil_r. Qed.

Lemma logs_only_trans (P : Call -> Prop) (s1 s2 s3 : Store W) :
  logs_only P s1 s2 -> logs_only P s2 s3 -> logs_only P s1 s3.
Proof.
  intros (n1 & C1 & H1) (n2 & C2 & H2). exists (n1 ++ n2).
  rewrite C2, C1, app_assoc. split; [reflexivity|].
  apply Forall_app. now split.
Qed.

Lemma logs_only_completion (P : Call -> Prop) (messages : list Message) :
  P (CompletionCall messages) ->
  keeps (logs_only P) (try_completion ag messages).
Proof.
  intros HP s res s' E. rewrite try_completion_run in E. injection E as _ <-.
  eexists. split; [reflexivity|]. now repeat constructor.
Qed.

Lemma logs_only_chars (P : Call -> Prop) (n : Z) :
  keeps (logs_only P) (@add_num_of_chars W n).
Proof.
  intros s res s' E. unfold add_num_of_chars in E. injection E as _ <-.
  exists []. cbn [calls]. now rewrite app_nil_r.
Qed.

Lemma logs_only_retry (P : Call -> Prop) :
  (forall mc, memory_condenser ag = Some mc -> forall b, P (CondenseCall b)) ->
  keeps (logs_only P) (_retry_with_condense ag).
Proof.
  intros HP s res s' E. unfold _retry_with_condense in E.
  rewrite (bind_Ok W get_state _ s s (state s) eq_refl) in E.
  destruct (memory_condenser ag) as [mc|] eqn:Em.
  - unfold bind in E. rewrite call_run in E.
    destruct (condense mc (world s) (history (state s))) as [[sa|] w'];
      cbn [fst snd] in E; unfold get_state, set_history, raise in E;
      cbn [state world calls] in E; injection E as _ <-;
      (eexists; split; [reflexivity|]; constructor; [now apply (HP mc)|constructor]).
  - injection E as _ <-. apply logs_only_refl.
Qed.

(** As long as every completion call exceeds the context window and
    every condensation yields a summary, the loop goes on. *)
Lemma loop_goes_on (fuel : nat) :
  (forall w messages,
     fst (llm_completion ag w messages) = inl ContextWindowExceededError) ->
  (forall mc, memory_condenser ag = Some mc ->
              forall w h, fst (condense mc w h) <> None) ->
  forall messages s,
    fst (completion_loop ag fuel None 0 messages s) = OutOfFuel
    /\ length (filter is_completion
                      (calls (snd (completion_loop ag fuel None 0 messages s))))
       = length (filter is_completion (calls s)) + fuel.
Proof.
  intros Hllm Hcondense. induction fuel as [|fuel IH]; intros messages s.
  - simpl. split; [reflexivity|lia].
  - rewrite completion_loop_S.
    pose proof (try_completion_run messages s) as Htry.
    rewrite (Hllm (world s) messages) in Htry.
    rewrite (bind_Ok W _ _ _ _ _ Htry). clear Htry.
    set (s1 := {| state := state s;
                  world := snd (llm_completion ag (world s) messages);
                  calls := calls s ++ [CompletionCall messages] |}).
    assert (Hcount : length (filter is_completion (calls s1))
                     = S (length (filter is_completion (calls s)))).
    { unfold s1. cbn [calls]. rewrite filter_app, length_app. simpl. lia. }
    destruct (memory_condenser ag) as [mc|] eqn:Em.
    + destruct (condense mc (world s1) (history (state s1))) as [[sa|] w'] eqn:Ec.
      * rewrite (bind_Ok W _ _ _ _ _ (retry_run_summary mc s1 sa w' Em Ec)).
        rewrite (bind_Ok W _ _ _ _ _ (render_run W ag _)).
        match goal with
        | |- context [completion_loop ag fuel None 0 ?ms ?s2] =>
            destruct (IH ms s2) as [H1 H2]; rewrite H1, H2
        end.
        split; [reflexivity|]. cbn [calls]. rewrite filter_app, length_app.
        cbn [filter is_completion length]. rewrite Hcount. lia.
      * exfalso. apply (Hcondense mc eq_refl (world s1) (history (state s1))).
        now rewrite Ec.
    + destruct (IH messages s1) as [H1 H2]. rewrite H1, H2.
      split; [reflexivity|lia].
Qed.

End Runs.

End TurnFacts.

Import TurnFacts.

(** X15: with no token ceiling configured and no exit sentinel, when
    the first completion call answers, the turn returns the decoded
    answer after that single call, adds to the character total the
    lengths of the rendered messages and of the repaired answer, and
    leaves the rest of the task state alone. *)
Theorem first_answer_is_decoded (W : Type) (ag : Agent W) (fuel : nat)
        (st : State) (w w' : W) (answer : str) :
  max_input_tokens ag = None ->
  ends_with_exit (_get_messages (prompt ag) st) = false ->
  llm_completion ag w (_get_messages (prompt ag) st) = (inr answer, w') ->
  run_step ag (S fuel) st w
  = (Ok (decode (parse_response answer)),
     {| state :=
          with_more_chars st
            (sum_content_lengths (_get_messages (prompt ag) st)
             + Z.of_nat (length (parse_response answer)));
        world := w';
        calls := [CompletionCall (_get_messages (prompt ag) st)] |}).
Proof.
  intros Hceiling Hexit Hanswer.
  rewrite (step_without_ceiling W ag (S fuel) st w Hceiling Hexit).
  pose proof (try_completion_run W ag (_get_messages (prompt ag) st)
                {| state := st; world := w; calls := [] |}) as Htry.
  cbn [world state calls] in Htry. rewrite Hanswer in Htry.
  cbn [fst snd app] in Htry.
  assert (Hloop :
    completion_loop ag (S fuel) None 0 (_get_messages (prompt ag) st)
                    {| state := st; world := w; calls := [] |}
    = (Ok (Some answer, _get_messages (prompt ag) st),
       {| state := st; world := w';
          calls := [CompletionCall (_get_messages (prompt ag) st)] |})).
  { rewrite completion_loop_S, (bind_Ok W _ _ _ _ _ Htry), completion_loop_done.
    reflexivity. }
  rewrite (bind_Ok W _ _ _ _ _ Hloop).
  apply after_loop_run.
Qed.

Lemma first_answer_is_decoded_witness :
  fst (run_step Scenario.plain_agent 3 Scenario.task_state tt)
  = Ok (MessageAction "ok" true)
  /\ completion_calls (snd (run_step Scenario.plain_agent 3 Scenario.task_state tt))
     = 1.
Proof.
  rewrite (first_answer_is_decoded unit Scenario.plain_agent 2
             Scenario.task_state tt tt "ok" eq_refl eq_refl eq_refl).
  split; reflexivity.
Defined.

(** X16: with no token ceiling configured and no exit sentinel, a
    completion call that fails with anything but
    [ContextWindowExceededError] ends the turn with that failure: no
    second call, no condensation, the task state untouched. *)
Theorem other_failure_is_not_retried (W : Type) (ag : Agent W) (fuel : nat)
        (st : State) (w w' : W) (e : Exception) :
  max_input_tokens ag = None ->
  ends_with_exit (_get_messages (prompt ag) st) = false ->
  llm_completion ag w (_get_messages (prompt ag) st) = (inl e, w') ->
  e <> ContextWindowExceededError ->
  run_step ag (S fuel) st w
  = (Raise e,
     {| state := st; world := w';
        calls := [CompletionCall (_get_messages (prompt ag) st)] |}).
Proof.
  intros Hceiling Hexit Hfail He.
  rewrite (step_without_ceiling W ag (S fuel) st w Hceiling Hexit).
  pose proof (try_completion_run W ag (_get_messages (prompt ag) st)
                {| state := st; world := w; calls := [] |}) as Htry.
  cbn [world state calls] in Htry. rewrite Hfail in Htry.
  cbn [fst snd app] in Htry.
  assert (Htry' :
    try_completion ag (_get_messages (prompt ag) st)
                   {| state := st; world := w; calls := [] |}
    = (Raise e,
       {| state := st; world := w';
          calls := [CompletionCall (_get_messages (prompt ag) st)] |}))
    by (destruct e; [congruence|exact Htry..]).
  apply bind_Raise. rewrite completion_loop_S. now apply bind_Raise.
Qed.

Lemma other_failure_is_not_retried_witness :
  run_step Scenario.failing_agent 3 Scenario.task_state tt
  = (Raise (OtherError "RateLimitError"),
     {| state := Scenario.task_state; world := tt;
        calls := [CompletionCall
                    (_get_messages Scenario.texts Scenario.task_state)] |}).
Proof.
  apply (other_failure_is_not_retried unit Scenario.failing_agent 2
           Scenario.task_state tt tt (OtherError "RateLimitError"));
    try reflexivity.
  discriminate.
Defined.

(** X17: recover once, then retry.  With no token ceiling configured
    and no exit sentinel, when the first completion call exceeds the
    context window, the condenser yields a summary and the second call
    answers, the history is replaced through the history sink, the
    second call is made on the messages rendered from the new history,
    and the turn returns the decoded answer; the character total grows
    by the lengths of the re-rendered messages and of the answer. *)
Theorem overflow_is_condensed_and_retried (W : Type) (ag : Agent W)
        (mc : MemoryCondenser W) (fuel : nat) (st : State) (w w1 w2 w3 : W)
        (sa : Action) (answer : str) :
  let messages := _get_messages (prompt ag) st in
  let st' := with_history st (replace_events_with_summary ag (history st) sa) in
  let messages' := _get_messages (prompt ag) st' in
  max_input_tokens ag = None ->
  ends_with_exit messages = false ->
  memory_condenser ag = Some mc ->
  llm_completion ag w messages = (inl ContextWindowExceededError, w1) ->
  condense mc w1 (history st) = (Some sa, w2) ->
  llm_completion ag w2 messages' = (inr answer, w3) ->
  run_step ag (S (S fuel)) st w
  = (Ok (decode (parse_response answer)),
     {| state :=
          with_more_chars st'
            (sum_content_lengths messages'
             + Z.of_nat (length (parse_response answer)));
        world := w3;
        calls := [CompletionCall messages; CondenseCall true;
                  CompletionCall messages'] |}).
Proof.
  intros messages st' messages' Hceiling Hexit Hmc Hfirst Hcondense Hsecond.
  rewrite (step_without_ceiling W ag (S (S fuel)) st w Hceiling Hexit).
  fold messages.
  pose proof (try_completion_run W ag messages
                {| state := st; world := w; calls := [] |}) as Htry.
  cbn [world state calls] in Htry. rewrite Hfirst in Htry.
  cbn [fst snd app] in Htry.
  pose proof (retry_run_summary W ag mc
                {| state := st; world := w1; calls := [CompletionCall messages] |}
                sa w2 Hmc Hcondense) as Hretry.
  cbn [world state calls app] in Hretry. fold st' in Hretry.
  pose proof (try_completion_run W ag messages'
                {| state := st'; world := w2;
                   calls := [CompletionCall messages; CondenseCall true] |})
    as Htry'.
  cbn [world state calls] in Htry'. rewrite Hsecond in Htry'.
  cbn [fst snd app] in Htry'.
  assert (Hloop :
    completion_loop ag (S (S fuel)) None 0 messages
                    {| state := st; world := w; calls := [] |}
    = (Ok (Some answer, messages'),
       {| state := st'; world := w3;
          calls := [CompletionCall messages; CondenseCall true;
                    CompletionCall messages'] |})).
  { rewrite completion_loop_S, (bind_Ok W _ _ _ _ _ Htry), Hmc.
    rewrite (bind_Ok W _ _ _ _ _ Hretry).
    rewrite (bind_Ok W _ _ _ _ _ (render_run W ag _)). cbn [state].
    fold messages'.
    rewrite completion_loop_S, (bind_Ok W _ _ _ _ _ Htry'), completion_loop_done.
    reflexivity. }
  rewrite (bind_Ok W _ _ _ _ _ Hloop).
  apply after_loop_run.
Qed.

Lemma overflow_is_condensed_and_retried_witness :
  fst (run_step Scenario.recovering_agent 2 Scenario.task_state 0)
  = Ok (MessageAction "All done." true)
  /\ history (state (snd (run_step Scenario.recovering_agent 2
                                   Scenario.task_state 0)))
     = [ActionEvent (Some AGENT) Scenario.summary_action]
  /\ length (calls (snd (run_step Scenario.recovering_agent 2
                                  Scenario.task_state 0))) = 3.
Proof.
  rewrite (overflow_is_condensed_and_retried
             nat Scenario.recovering_agent (Scenario.willing_condenser nat) 0
             Scenario.task_state 0 1 1 2 Scenario.summary_action "All done."
             eq_refl eq_refl eq_refl eq_refl eq_refl eq_refl).
  repeat split.
Defined.

(** X18: a turn never changes the iteration counter or the iteration
    bound, never lowers the character total, and leaves the history as
    it was unless a condensation yielded a summary during the turn. *)
Theorem turn_keeps_counters (W : Type) (ag : Agent W) (fuel : nat)
        (st : State) (w : W) :
  let after := snd (run_step ag fuel st w) in
  iteration (state after) = iteration st
  /\ max_iterations (state after) = max_iterations st
  /\ (num_of_chars st <= num_of_chars (state after))%Z
  /\ (history (state after) = history st
      \/ In (CondenseCall true) (calls after)).
Proof.
  intros after. unfold after, run_step.
  destruct (step ag fuel {| state := st; world := w; calls := [] |})
    as [res s'] eqn:E.
  destruct (turn_effect_step W ag fuel _ _ _ E) as (new & Hc & Hi & Hm & Hn & Hh).
  cbn [snd state calls app] in *. rewrite Hc. auto.
Qed.

(** X19: the retry loop has no bound of its own.  With no token
    ceiling configured and no exit sentinel, if every completion call
    exceeds the context window and every condensation yields a summary
    (or there is no condenser), the turn does not end: cut off after
    [fuel] iterations, it has made [fuel] completion calls. *)
Theorem persistent_overflow_never_ends (W : Type) (ag : Agent W)
        (st : State) (w : W) :
  max_input_tokens ag = None ->
  ends_with_exit (_get_messages (prompt ag) st) = false ->
  (forall w' messages,
     fst (llm_completion ag w' messages) = inl ContextWindowExceededError) ->
  (forall mc, memory_condenser ag = Some mc ->
              forall w' h, fst (condense mc w' h) <> None) ->
  forall fuel,
    fst (run_step ag fuel st w) = OutOfFuel
    /\ completion_calls (snd (run_step ag fuel st w)) = fuel.
Proof.
  intros Hceiling Hexit Hllm Hcondense fuel.
  rewrite (step_without_ceiling W ag fuel st w Hceiling Hexit).
  destruct (loop_goes_on W ag fuel Hllm Hcondense
              (_get_messages (prompt ag) st)
              {| state := st; world := w; calls := [] |}) as [H1 H2].
  unfold bind.
  destruct (completion_loop ag fuel None 0 (_get_messages (prompt ag) st)
              {| state := st; world := w; calls := [] |}) as [r s'].
  cbn [fst snd] in *. subst r. cbn [fst snd]. split; [reflexivity|].
  unfold completion_calls. rewrite H2. reflexivity.
Qed.

Lemma persistent_overflow_never_ends_witness :
  fst (run_step Scenario.overflowing_agent 7 Scenario.task_state tt) = OutOfFuel
  /\ completion_calls
       (snd (run_step Scenario.overflowing_agent 7 Scenario.task_state tt)) = 7.
Proof.
  apply (persistent_overflow_never_ends unit Scenario.overflowing_agent
           Scenario.task_state tt); try reflexivity.
  intros mc [= <-] w' h. discriminate.
Defined.

(** X20: the token estimate is asked for only when a token ceiling is
    configured, and an agent without a condenser makes completion calls
    only: it is never asked for the estimate and never condenses. *)
Theorem collaborators_called_when_configured (W : Type) (ag : Agent W)
        (fuel : nat) (st : State) (w : W) :
  (max_input_tokens ag = None ->
   ~ In TokenLimitCall (calls (snd (run_step ag fuel st w))))
  /\ (memory_condenser ag = None ->
      forall c, In c (calls (snd (run_step ag fuel st w))) ->
                is_completion c = true).
Proof.
  unfold run_step.
  destruct (step ag fuel {| state := st; world := w; calls := [] |})
    as [res s'] eqn:E.
  cbn [snd]. split.
  - intros Hceiling.
    assert (H : keeps (logs_only (fun c => c <> TokenLimitCall)) (step ag fuel)).
    { apply keeps_step.
      - apply logs_only_refl.
      - apply logs_only_trans.
      - intros messages. now apply logs_only_completion.
      - apply logs_only_retry. intros mc _ b. discriminate.
      - intros limit mc messages Hl. congruence.
      - intros n _. apply logs_only_chars. }
    destruct (H _ _ _ E) as (new & Hc & Hall). cbn [calls app] in Hc.
    rewrite Hc. intros Hin. rewrite Forall_forall in Hall.
    now apply (Hall _ Hin).
  - intros Hcondenser.
    assert (H : keeps (logs_only (fun c => is_completion c = true))
                      (step ag fuel)).
    { apply keeps_step.
      - apply logs_only_refl.
      - apply logs_only_trans.
      - intros messages. now apply logs_only_completion.
      - apply logs_only_retry. intros mc Hmc. congruence.
      - intros limit mc messages _ Hmc. congruence.
      - intros n _. apply logs_only_chars. }
    destruct (H _ _ _ E) as (new & Hc & Hall). cbn [calls app] in Hc.
    rewrite Hc. now apply Forall_forall.
Qed.

Lemma collaborators_called_when_configured_witness :
  ~ In TokenLimitCall
       (calls (snd (run_step Scenario.plain_agent 3 Scenario.task_state tt)))
  /\ forall c,
       In c (calls (snd (run_step Scenario.bare_agent 3 Scenario.task_state tt))) ->
       is_completion c = true.
Proof.
  split.
  - apply (proj1 (collaborators_called_when_configured
                    unit Scenario.plain_agent 3 Scenario.task_state tt)).
    reflexivity.
  - apply (proj2 (collaborators_called_when_configured
                    unit Scenario.bare_agent 3 Scenario.task_state tt)).
    reflexivity.
Defined.

(** ** Truncated generations *)

Module TruncatedFacts.

Section Truncated.
Variables o' c' a b : str.
Hypothesis Ho' : tag_free o'.
Hypothesis Hc' : tag_free c'.
Hypothesis Ha : tag_free a.
Hypothesis Hb : tag_free b.

Let o : str := "<"%char :: o'.
Let c : str := "<"%char :: c'.

(** In a text cut after the payload, [f] occurs only where the
    opening tag is. *)
Lemma truncated_contains (f' : str) :
  contains ("<"%char :: f') (a ++ o ++ b)
  = startswith ("<"%char :: f') (o ++ b).
Proof.
  rewrite (contains_after _ f' a _ Ha).
  unfold o at 1. change (("<"%char :: o') ++ b) with ("<"%char :: (o' ++ b)).
  cbn [contains]. fold o. change ("<"%char :: o' ++ b) with (o ++ b).
  rewrite (contains_none _ f' (o' ++ b)); [apply orb_false_r|].
  apply Forall_app. now split.
Qed.

End Truncated.

End TruncatedFacts.

Import TruncatedFacts.

(** X21: the repair does its job on a generation cut at a stop
    sequence.  A response that ends inside a bash block, with no [<]
    in the thought or in the command, gets the closing tag appended and
    decodes to the run-command action with the command and the thought
    trimmed (to a finish action when the command is [exit]); a
    response that ends inside an interpreter block decodes to the
    interpreter-cell action in the same way. *)
Theorem truncated_block_is_repaired (thought payload : str) :
  tag_free thought -> tag_free payload ->
  (parse_response (thought ++ "<execute_bash>" ++ payload)
   = thought ++ "<execute_bash>" ++ payload ++ "</execute_bash>"
   /\ decode (parse_response (thought ++ "<execute_bash>" ++ payload))
      = if eqb (strip payload) "exit"
        then AgentFinishAction None
        else CmdRunAction (strip payload) (strip thought))
  /\ (parse_response (thought ++ "<execute_ipython>" ++ payload)
      = thought ++ "<execute_ipython>" ++ payload ++ "</execute_ipython>"
      /\ decode (parse_response (thought ++ "<execute_ipython>" ++ payload))
         = IPythonRunCellAction (strip payload) (strip thought)
                                jupyter_kernel_init_code).
Proof.
  intros Ha Hb.
  assert (Hob : tag_free "execute_bash>") by tag_free_literal.
  assert (Hcb : tag_free "/execute_bash>") by tag_free_literal.
  assert (Hoi : tag_free "execute_ipython>") by tag_free_literal.
  assert (Hci : tag_free "/execute_ipython>") by tag_free_literal.
  split.
  - assert (Hparse :
      parse_response (thought ++ "<execute_bash>" ++ payload)
      = thought ++ "<execute_bash>" ++ payload ++ "</execute_bash>").
    { rewrite parse_response_unfold.
      assert (H1 : repair (thought ++ "<execute_bash>" ++ payload) "bash"
                   = thought ++ "<execute_bash>" ++ payload ++ "</execute_bash>").
      { rewrite repair_unclosed. unfold unclosed.
        replace (contains (open_tag "bash") (thought ++ "<execute_bash>" ++ payload))
          with true
          by (symmetry; apply contains_iff; now exists thought, payload).
        replace (contains (close_tag "bash") (thought ++ "<execute_bash>" ++ payload))
          with false
          by (symmetry;
              etransitivity;
                [apply (truncated_contains "execute_bash>" thought payload
                          Hob Ha Hb "/execute_bash>")|reflexivity]).
        cbn [andb negb]. now rewrite <- !app_assoc. }
      rewrite H1, !repair_unclosed.
      rewrite (unclosed_absent "ipython"), (unclosed_absent "browse");
        [reflexivity| |].
      - etransitivity;
          [apply (rendered_contains "execute_bash>" "/execute_bash>"
                    thought payload Hob Hcb Ha Hb "execute_browse>")
          |reflexivity].
      - etransitivity;
          [apply (rendered_contains "execute_bash>" "/execute_bash>"
                    thought payload Hob Hcb Ha Hb "execute_ipython>")
          |reflexivity]. }
    split; [exact Hparse|]. rewrite Hparse.
    set (s := thought ++ "<execute_bash>" ++ payload ++ "</execute_bash>").
    assert (Hfinish : search finish_re s = None).
    { apply (rendered_search_other "execute_bash>" "/execute_bash>"
               thought payload Hob Hcb Ha Hb "finish>"); reflexivity. }
    pose proof (rendered_search "execute_bash>" "/execute_bash>"
                  thought payload Ha Hb false) as Hbash.
    rewrite (decode_bash_found s _ Hfinish Hbash).
    replace (group1 "<execute_bash>" "</execute_bash>" s _) with payload
      by (symmetry;
          apply (rendered_group1 "execute_bash>" "/execute_bash>" thought payload)).
    replace (thought_of s _) with (strip thought)
      by (symmetry;
          apply (rendered_thought "execute_bash>" "/execute_bash>"
                   thought payload Ha)).
    now rewrite strip_idem.
  - assert (Hparse :
      parse_response (thought ++ "<execute_ipython>" ++ payload)
      = thought ++ "<execute_ipython>" ++ payload ++ "</execute_ipython>").
    { rewrite parse_response_unfold.
      assert (H1 : repair (thought ++ "<execute_ipython>" ++ payload) "bash"
                   = thought ++ "<execute_ipython>" ++ payload).
      { rewrite repair_unclosed, (unclosed_absent "bash"); [reflexivity|].
        etransitivity;
          [apply (truncated_contains "execute_ipython>" thought payload
                    Hoi Ha Hb "execute_bash>")|reflexivity]. }
      rewrite H1.
      assert (H2 : repair (thought ++ "<execute_ipython>" ++ payload) "ipython"
                   = thought ++ "<execute_ipython>" ++ payload
                     ++ "</execute_ipython>").
      { rewrite repair_unclosed. unfold unclosed.
        replace (contains (open_tag "ipython")
                          (thought ++ "<execute_ipython>" ++ payload))
          with true
          by (symmetry; apply contains_iff; now exists thought, payload).
        replace (contains (close_tag "ipython")
                          (thought ++ "<execute_ipython>" ++ payload))
          with false
          by (symmetry;
              etransitivity;
                [apply (truncated_contains "execute_ipython>" thought payload
                          Hoi Ha Hb "/execute_ipython>")|reflexivity]).
        cbn [andb negb]. now rewrite <- !app_assoc. }
      rewrite H2, repair_unclosed, (unclosed_absent "browse"); [reflexivity|].
      etransitivity;
        [apply (rendered_contains "execute_ipython>" "/execute_ipython>"
                  thought payload Hoi Hci Ha Hb "execute_browse>")
        |reflexivity]. }
    split; [exact Hparse|]. rewrite Hparse.
    set (s := thought ++ "<execute_ipython>" ++ payload ++ "</execute_ipython>").
    assert (Hfinish : search finish_re s = None).
    { apply (rendered_search_other "execute_ipython>" "/execute_ipython>"
               thought payload Hoi Hci Ha Hb "finish>"); reflexivity. }
    assert (Hbash : search bash_re s = None).
    { apply (rendered_search_other "execute_ipython>" "/execute_ipython>"
               thought payload Hoi Hci Ha Hb "execute_bash>"); reflexivity. }
    pose proof (rendered_search "execute_ipython>" "/execute_ipython>"
                  thought payload Ha Hb false) as Hipython.
    rewrite (decode_ipython_found s _ Hfinish Hbash Hipython).
    replace (group1 "<execute_ipython>" "</execute_ipython>" s _) with payload
      by (symmetry;
          apply (rendered_group1 "execute_ipython>" "/execute_ipython>"
                   thought payload)).
    replace (thought_of s _) with (strip thought)
      by (symmetry;
          apply (rendered_thought "execute_ipython>" "/execute_ipython>"
                   thought payload Ha)).
    reflexivity.
Qed.

Lemma truncated_block_is_repaired_witness :
  decode (parse_response "Let me look. <execute_bash>ls -la")
  = CmdRunAction "ls -la" "Let me look."
  /\ decode (parse_response "<execute_ipython>print(1)")
     = IPythonRunCellAction "print(1)" [] jupyter_kernel_init_code.
Proof.
  split.
  - apply (proj1 (truncated_block_is_repaired "Let me look. " "ls -la"
                    ltac:(repeat constructor; discriminate)
                    ltac:(repeat constructor; discriminate))).
  - apply (proj2 (truncated_block_is_repaired [] "print(1)"
                    ltac:(repeat constructor; discriminate)
                    ltac:(repeat constructor; discriminate))).
Defined.

(** ** Recovery before the first completion call *)

Module PreemptiveFacts.

Section Preemptive.
Variable W : Type.
Variable ag : Agent W.

Lemma retry_run_nothing (mc : MemoryCondenser W) (s : Store W) (w' : W) :
  memory_condenser ag = Some mc ->
  condense mc (world s) (history (state s)) = (None, w') ->
  _retry_with_condense ag s
  = (Raise fatal_error,
     {| state := state s; world := w'; calls := calls s ++ [CondenseCall false] |}).
Proof.
  intros Hmc Hcondense. unfold _retry_with_condense.
  rewrite (bind_Ok W get_state _ s s (state s) eq_refl), Hmc.
  unfold bind. rewrite call_run, Hcondense. reflexivity.
Qed.

(** The turn up to the sentinel test, when the rendered messages are
    found over the ceiling. *)
Lemma step_over_ceiling (fuel : nat) (st : State) (w w1 : W) (limit : Z)
      (mc : MemoryCondenser W) :
  max_input_tokens ag = Some limit ->
  memory_condenser ag = Some mc ->
  is_over_token_limit mc w (_get_messages (prompt ag) st) = (true, w1) ->
  run_step ag fuel st w
  = bind (bind (_retry_with_condense ag) (fun _ => render ag))
         (fun messages =>
            if ends_with_exit messages
            then ret (AgentFinishAction None)
            else bind (completion_loop ag fuel None 0 messages) after_loop)
         {| state := st; world := w1; calls := [TokenLimitCall] |}.
Proof.
  intros Hlimit Hmc Hover. unfold run_step, step.
  rewrite (bind_Ok W _ _ _ _ _ (render_run W ag _)). cbn [state].
  rewrite Hlimit, Hmc. unfold bind at 1. unfold bind at 1.
  rewrite call_run. cbn [world state calls]. rewrite Hover. reflexivity.
Qed.

End Preemptive.

End PreemptiveFacts.

Import PreemptiveFacts.

(** X22: when a token ceiling is configured, the rendered messages
    are found over it and the condenser yields nothing, the turn raises
    the context-limit error before any completion call, whatever the
    latest user message is, and leaves the task state untouched. *)
Theorem overflow_before_completion_is_fatal (W : Type) (ag : Agent W)
        (mc : MemoryCondenser W) (fuel : nat) (st : State) (w w1 w2 : W)
        (limit : Z) :
  max_input_tokens ag = Some limit ->
  memory_condenser ag = Some mc ->
  is_over_token_limit mc w (_get_messages (prompt ag) st) = (true, w1) ->
  condense mc w1 (history st) = (None, w2) ->
  run_step ag fuel st w
  = (Raise fatal_error,
     {| state := st; world := w2;
        calls := [TokenLimitCall; CondenseCall false] |}).
Proof.
  intros Hlimit Hmc Hover Hcondense.
  rewrite (step_over_ceiling W ag fuel st w w1 limit mc Hlimit Hmc Hover).
  apply bind_Raise. apply bind_Raise.
  apply (retry_run_nothing W ag mc
           {| state := st; world := w1; calls := [TokenLimitCall] |} w2 Hmc Hcondense).
Qed.

Lemma overflow_before_completion_is_fatal_witness :
  run_step Scenario.capped_agent 3 Scenario.task_state tt
  = (Raise fatal_error,
     {| state := Scenario.task_state; world := tt;
        calls := [TokenLimitCall; CondenseCall false] |}).
Proof.
  apply (overflow_before_completion_is_fatal
           unit Scenario.capped_agent Scenario.stuck_condenser 3
           Scenario.task_state tt tt tt 1); reflexivity.
Defined.

(** X23: when a token ceiling is configured, the rendered messages
    are found over it and the condenser yields a summary, the history
    is replaced, the messages are rendered again and the token count is
    not asked for a second time; if the new messages do not end with
    the sentinel and the completion call answers, the turn returns the
    decoded answer, and if they end with the sentinel it returns the
    finish action without a completion call. *)
Theorem overflow_before_completion_is_condensed (W : Type) (ag : Agent W)
        (mc : MemoryCondenser W) (fuel : nat) (st : State) (w w1 w2 : W)
        (limit : Z) (sa : Action) :
  let st' := with_history st (replace_events_with_summary ag (history st) sa) in
  let messages' := _get_messages (prompt ag) st' in
  max_input_tokens ag = Some limit ->
  memory_condenser ag = Some mc ->
  is_over_token_limit mc w (_get_messages (prompt ag) st) = (true, w1) ->
  condense mc w1 (history st) = (Some sa, w2) ->
  (ends_with_exit messages' = true ->
   run_step ag fuel st w
   = (Ok (AgentFinishAction None),
      {| state := st'; world := w2;
         calls := [TokenLimitCall; CondenseCall true] |}))
  /\ (ends_with_exit messages' = false ->
      forall answer w3,
        llm_completion ag w2 messages' = (inr answer, w3) ->
        run_step ag (S fuel) st w
        = (Ok (decode (parse_response answer)),
           {| state :=
                with_more_chars st'
                  (sum_content_lengths messages'
                   + Z.of_nat (length (parse_response answer)));
              world := w3;
              calls := [TokenLimitCall; CondenseCall true;
                        CompletionCall messages'] |})).
Proof.
  intros st' messages' Hlimit Hmc Hover Hcondense.
  pose proof (retry_run_summary W ag mc
                {| state := st; world := w1; calls := [TokenLimitCall] |}
                sa w2 Hmc Hcondense) as Hretry.
  cbn [world state calls app] in Hretry. fold st' in Hretry.
  assert (Hrender :
    bind (_retry_with_condense ag) (fun _ => render ag)
         {| state := st; world := w1; calls := [TokenLimitCall] |}
    = (Ok messages',
       {| state := st'; world := w2;
          calls := [TokenLimitCall; CondenseCall true] |})).
  { rewrite (bind_Ok W _ _ _ _ _ Hretry). reflexivity. }
  split.
  - intros Hexit.
    rewrite (step_over_ceiling W ag fuel st w w1 limit mc Hlimit Hmc Hover).
    rewrite (bind_Ok W _ _ _ _ _ Hrender). now rewrite Hexit.
  - intros Hexit answer w3 Hanswer.
    rewrite (step_over_ceiling W ag (S fuel) st w w1 limit mc Hlimit Hmc Hover).
    rewrite (bind_Ok W _ _ _ _ _ Hrender). rewrite Hexit.
    pose proof (try_completion_run W ag messages'
                  {| state := st'; world := w2;
                     calls := [TokenLimitCall; CondenseCall true] |}) as Htry.
    cbn [world state calls] in Htry. rewrite Hanswer in Htry.
    cbn [fst snd app] in Htry.
    assert (Hloop :
      completion_loop ag (S fuel) None 0 messages'
                      {| state := st'; world := w2;
                         calls := [TokenLimitCall; CondenseCall true] |}
      = (Ok (Some answer, messages'),
         {| state := st'; world := w3;
            calls := [TokenLimitCall; CondenseCall true;
                      CompletionCall messages'] |})).
    { rewrite completion_loop_S, (bind_Ok W _ _ _ _ _ Htry),
        completion_loop_done.
      reflexivity. }
    rewrite (bind_Ok W _ _ _ _ _ Hloop).
    apply after_loop_run.
Qed.

Lemma overflow_before_completion_is_condensed_witness :
  fst (run_step Scenario.eager_agent 1 Scenario.exit_state tt)
  = Ok (AgentFinishAction None)
  /\ fst (run_step Scenario.eager_agent 1 Scenario.task_state tt)
     = Ok (MessageAction "ok" true)
  /\ calls (snd (run_step Scenario.eager_agent 1 Scenario.task_state tt))
     = [TokenLimitCall; CondenseCall true;
        CompletionCall
          (_get_messages Scenario.texts
             (with_history Scenario.task_state
                (ActionEvent (Some AGENT) Scenario.summary_action
                 :: history Scenario.task_state)))].
Proof.
  destruct (overflow_before_completion_is_condensed
              unit Scenario.eager_agent Scenario.eager_condenser 1
              Scenario.exit_state tt tt tt 1 Scenario.summary_action
              eq_refl eq_refl eq_refl eq_refl) as [Hexit _].
  destruct (overflow_before_completion_is_condensed
              unit Scenario.eager_agent Scenario.eager_condenser 0
              Scenario.task_state tt tt tt 1 Scenario.summary_action
              eq_refl eq_refl eq_refl eq_refl) as [_ Hanswer].
  rewrite (Hexit eq_refl), (Hanswer eq_refl "ok" tt eq_refl).
  repeat split.
Defined.

Module SummaryFacts.



End SummaryFacts.

Import SummaryFacts.


